(** * Team formation: a model of [main.py] and its specification

    [Task.make_teams] enumerates, for a task with required skills, the teams
    of people whose skills cover the task, prunes redundant members, drops
    duplicate teams and ranks the teams by total salary.  This file embeds
    the data model and the algorithm and proves the properties the
    specification states about them.  The algorithm is embedded twice: as a
    function on lists of typed persons, and as a program on a store of list
    objects that it changes in place; the second is shown to compute what
    the first does. *)

From Stdlib Require Import ZArith.
From stdpp Require Import functions base list gmap strings sorting.

Local Open Scope Z_scope.

(** ** Exceptions

    The Python code signals failure by raising; a computation that can raise
    returns a [result]. *)

Inductive exn := TypeError | KeyError | ValueError.

Inductive result (A : Type) : Type :=
| Ok (a : A)
| Raise (e : exn).
Arguments Ok {A} a.
Arguments Raise {A} e.

#[global] Instance result_ret : MRet result := λ A a, Ok a.
#[global] Instance result_bind : MBind result := λ A B k m,
  match m with
  | Ok a => k a
  | Raise e => Raise e
  end.

(** [for x in l: st = body(st, x)], where the body may raise. *)
Fixpoint for_each {A St} (body : St → A → result St) (l : list A) (st : St)
  : result St :=
  match l with
  | [] => Ok st
  | x :: l' => st' ← body st x; for_each body l' st'
  end.

(** The same loop with [break]: the body says how the iteration goes on. *)
Inductive flow := Continue | Break.

Fixpoint for_each_break {A St} (body : St → A → result (St * flow))
  (l : list A) (st : St) : result St :=
  match l with
  | [] => Ok st
  | x :: l' =>
      r ← body st x;
      match r.2 with
      | Break => Ok r.1
      | Continue => for_each_break body l' r.1
      end
  end.

(** ** Stable sorting

    [list.sort] is stable and compares with [<] only.  For an order in which
    incomparability is transitive its result is the unique stable sorted
    permutation, which insertion from the right computes. *)

Section stable_sort.
Context {A : Type} (lt : A → A → bool).

Fixpoint insert_sorted (x : A) (l : list A) : list A :=
  match l with
  | [] => [x]
  | y :: l' => if lt y x then y :: insert_sorted x l' else x :: y :: l'
  end.

Fixpoint stable_sort (l : list A) : list A :=
  match l with
  | [] => []
  | x :: l' => insert_sorted x (stable_sort l')
  end.

(** In a sorted list no element is less than the one before it. *)
Definition not_after (a b : A) : Prop := lt b a = false.
End stable_sort.

(** ** Insertion-ordered dictionaries with string keys *)

Abbreviation dict V := (list (string * V)).

(** [d[k] = v]: an existing key keeps its position. *)
Fixpoint dict_set {V} (d : dict V) (k : string) (v : V) : dict V :=
  match d with
  | [] => [(k, v)]
  | (k', v') :: d' =>
      if decide (k' = k) then (k', v) :: d' else (k', v') :: dict_set d' k v
  end.

(** [d[k].append(x)]; a missing key is a [KeyError]. *)
Fixpoint dict_append {X} (d : dict (list X)) (k : string) (x : X)
  : result (dict (list X)) :=
  match d with
  | [] => Raise KeyError
  | (k', v) :: d' =>
      if decide (k' = k) then Ok ((k', v ++ [x]) :: d')
      else d'' ← dict_append d' k x; Ok ((k', v) :: d'')
  end.

(** [l.remove(x)]: drops the first element equal to [x]; [ValueError] when
    there is none. *)
Fixpoint list_remove_first {X} `{EqDecision X} (x : X) (l : list X)
  : result (list X) :=
  match l with
  | [] => Raise ValueError
  | y :: l' =>
      if decide (y = x) then Ok l'
      else l'' ← list_remove_first x l'; Ok (y :: l'')
  end.

(** [map(f, l)] where [f] may raise: the first failure is the result. *)
Fixpoint map_result {A B} (f : A → result B) (l : list A) : result (list B) :=
  match l with
  | [] => Ok []
  | x :: l' => y ← f x; ys ← map_result f l'; Ok (y :: ys)
  end.

(** ** Documents

    What the YAML reader hands over and what the writer is given: scalars,
    lists and dictionaries with string keys. *)

Inductive value :=
| VNone
| VStr (s : string)
| VInt (n : Z)
| VList (l : list value)
| VDict (d : list (string * value)).

Definition as_str (v : value) : option string :=
  if v is VStr s then Some s else None.

Fixpoint dict_lookup {V} (d : dict V) (k : string) : option V :=
  match d with
  | [] => None
  | (k', v) :: d' => if decide (k' = k) then Some v else dict_lookup d' k
  end.

(** [d.get(k)]: [None] when the key is missing. *)
Definition py_get (d : dict value) (k : string) : value :=
  default VNone (dict_lookup d k).

(** What [for x in v] goes through.  A string yields its characters and a
    dictionary its keys; [None] and numbers are not iterable. *)
Definition iter (v : value) : result (list value) :=
  match v with
  | VList l => Ok l
  | VStr s => Ok ((λ c, VStr (String c EmptyString)) <$> String.list_ascii_of_string s)
  | VDict d => Ok (VStr <$> d.*1)
  | VNone | VInt _ => Raise TypeError
  end.

(** ** Person *)

Module Person.

Record t := mk { name : string; salary : Z; skills : list string }.

(** [__eq__]: name, salary and skills all equal. *)
#[global] Instance eq_dec : EqDecision t.
Proof. solve_decision. Defined.

(** [__lt__]: by name only. *)
Definition lt (self other : t) : bool := String.ltb (name self) (name other).

(** [__gt__]: by name only. *)
Definition gt (self other : t) : bool :=
  if String.compare (name self) (name other) is Gt then true else false.

(** The object as [__init__] builds it: each field holds whatever the record
    has under its key.  [t] above is a person whose fields have the
    documented types. *)
Record obj := Obj { obj_name : value; obj_salary : value; obj_skills : value }.

(** [__init__(self, **kwargs)] *)
Definition __init__ (kwargs : dict value) : obj :=
  Obj (py_get kwargs "name") (py_get kwargs "salary") (py_get kwargs "skills").

(** The call [Person( **kwargs)]: the argument has to be a mapping, and a key
    [self] clashes with the receiver. *)
Definition new (kwargs : value) : result obj :=
  match kwargs with
  | VDict kw => if decide ("self" ∈ kw.*1) then Raise TypeError
      else Ok (__init__ kw)
  | _ => Raise TypeError
  end.

(** [[Person( **kwargs) for kwargs in data.get('Peoples')]] *)
Definition make_people (data : dict value) : result (list obj) :=
  records ← iter (py_get data "Peoples"); map_result new records.

End Person.

Abbreviation team := (list Person.t).

(** [team.sort()] *)
Definition sort_team (tm : team) : team := stable_sort Person.lt tm.

(** A team is name-sorted when no member has a name below that of the member
    before it. *)
Definition name_sorted (tm : team) : Prop := Sorted (not_after Person.lt) tm.

(** [sum([person.salary for person in team])] *)
Definition price (tm : team) : Z :=
  foldl Z.add 0 (Person.salary <$> tm).

(** The total salary of a team, one member after the other: the price the
    specification asks for. *)
Fixpoint total_salary (tm : team) : Z :=
  match tm with
  | [] => 0
  | p :: tm' => Person.salary p + total_salary tm'
  end.

(** [teams.sort(key=lambda team: sum(...))] *)
Definition sort_by_price (teams : list team) : list team :=
  stable_sort (λ t1 t2, (price t1 <? price t2)%Z) teams.

(** ** Skill sets *)

(** [set(p.skills) & set(self.skills)] *)
Definition relevant (S : list string) (p : Person.t) : gset string :=
  list_to_set (Person.skills p) ∩ list_to_set S.

(** [ts = set(); for p in t: ts.update(set(p.skills) & set(self.skills))] *)
Definition team_skills (S : list string) (tm : team) : gset string :=
  foldl (λ ts p, ts ∪ relevant S p) ∅ tm.

(** A team covers the task: the union of the members' skills, intersected
    with the required skills, is the required skill set. *)
Definition covers (S : list string) (tm : team) : Prop :=
  ⋃ ((λ p, list_to_set (Person.skills p)) <$> tm) ∩ list_to_set S
  = (list_to_set S : gset string).

(** ** Task *)

Module Task.

Record t := mk { name : string; skills : list string; teams : list team }.

(** The object as [__init__] builds it. *)
Record obj := Obj { obj_name : value; obj_skills : value; obj_teams : list team }.

(** [__init__(self, **kwargs)] *)
Definition __init__ (kwargs : dict value) : obj :=
  Obj (py_get kwargs "name") (py_get kwargs "skills") [].

(** The call [Task( **kwargs)] *)
Definition new (kwargs : value) : result obj :=
  match kwargs with
  | VDict kw => if decide ("self" ∈ kw.*1) then Raise TypeError
      else Ok (__init__ kw)
  | _ => Raise TypeError
  end.

(** [[Task( **kwargs) for kwargs in data.get('Tasks')]] *)
Definition make_tasks (data : dict value) : result (list obj) :=
  records ← iter (py_get data "Tasks"); map_result new records.


(** [if team not in teams: teams.append(team)] *)
Definition add_team (tm : team) (teams : list team) : list team :=
  if decide (tm ∈ teams) then teams else teams ++ [tm].

Section make_teams.
(** [self.skills] *)
Context (S : list string).

(** [[p for p in people if set(self.skills) & set(p.skills)]] *)
Definition people_have_skills (people : list Person.t) : list Person.t :=
  filter (λ p, relevant S p ≠ ∅) people.

(** The dictionary [skills_count] once both loops over it have run. *)
Definition skills_count (candidates : list Person.t)
  : result (dict (list Person.t)) :=
  for_each
    (λ d p,
       for_each
         (λ d skill,
            if decide (skill ∈ Person.skills p) then dict_append d skill p
            else Ok d)
         S d)
    candidates
    (foldl (λ d s, dict_set d s []) [] S).

(** [[count[0] for skill, count in skills_count.items() if len(count) == 1]] *)
Definition people_with_unique_skills (d : dict (list Person.t))
  : list Person.t :=
  omap (λ item, if decide (length item.2 = 1%nat) then head item.2 else None) d.

Section search.
Context (unique : list Person.t).

(** The local function [init]. *)
Definition init (curr : Person.t) : team * gset string :=
  let t := if decide (curr ∈ unique) then unique else unique ++ [curr] in
  (t, team_skills S t).

(** The skills of everyone in the team but member [i]. *)
Definition skills_except (tm : team) (i : nat) : gset string :=
  foldl
    (λ ts j,
       if decide (i = j) then ts
       else match tm !! j with
            | Some q => ts ∪ relevant S q
            | None => ts
            end)
    ∅ (seq 0 (length tm)).

(** The list [removed]: the members the rest of the team can do without. *)
Definition redundant (tm : team) (teams_skills : gset string) : team :=
  omap
    (λ i, if decide (skills_except tm i = teams_skills) then tm !! i
          else None)
    (seq 0 (length tm)).

(** [for r in removed: ...]: take each one out, and put it back at the
    end when the team no longer has all the skills. *)
Definition prune (removed tm : team) (teams_skills : gset string)
  : result team :=
  for_each
    (λ tm r,
       tm ← list_remove_first r tm;
       if decide (team_skills S tm ≠ teams_skills) then Ok (tm ++ [r])
       else Ok tm)
    removed tm.

(** The state of the inner loop: [team], [teams_skills] and [teams]. *)
Definition search_state : Type := team * gset string * list team.

(** The body of [for other_person in people_have_skills]. *)
Definition inner_body (current_person : Person.t) (st : search_state)
  (other_person : Person.t) : result (search_state * flow) :=
  let '(tm, teams_skills, teams) := st in
  if decide (other_person = current_person ∨ other_person ∈ tm)
  then Ok (st, Continue)
  else
    let other_person_skills := relevant S other_person in
    if decide (other_person_skills = list_to_set S) then
      let tm := [other_person] in
      Ok ((tm, teams_skills, add_team tm teams), Break)
    else
      let '(tm, teams_skills) :=
        if decide (other_person_skills ⊆ teams_skills)
        then (tm, teams_skills)
        else (tm ++ [other_person], teams_skills ∪ other_person_skills) in
      if decide (teams_skills = list_to_set S) then
        tm ← prune (redundant tm teams_skills) tm teams_skills;
        let teams := add_team (sort_team tm) teams in
        let '(tm, teams_skills) := init current_person in
        Ok ((tm, teams_skills, teams), Continue)
      else Ok ((tm, teams_skills, teams), Continue).

(** The body of [for current_person in people_have_skills]. *)
Definition outer_body (candidates : list Person.t) (teams : list team)
  (current_person : Person.t) : result (list team) :=
  let '(tm, teams_skills) := init current_person in
  if decide (teams_skills = list_to_set S) then
    Ok (add_team (sort_team tm) teams)
  else
    st ← for_each_break (inner_body current_person) candidates
           (tm, teams_skills, teams);
    Ok st.2.
End search.

(** The local list [teams] when the search is over, before it is ranked. *)
Definition found_teams (people : list Person.t) : result (list team) :=
  let candidates := people_have_skills people in
  d ← skills_count candidates;
  for_each (outer_body (people_with_unique_skills d) candidates)
    candidates [].
End make_teams.

(** [make_teams] returns nothing: its result here is the task and the list of
    people as the call leaves them. *)
Definition make_teams (self : t) (people : list Person.t)
  : result (t * list Person.t) :=
  teams ← found_teams (skills self) people;
  Ok (mk (name self) (skills self) (sort_by_price teams), people).

End Task.

(** ** Reading an output document

    The output document of the specification, read back: per task its name
    and, per team, the names and the price. *)

Fixpoint read_list {B} (f : value → option B) (l : list value)
  : option (list B) :=
  match l with
  | [] => Some []
  | v :: l' =>
      match f v, read_list f l' with
      | Some x, Some xs => Some (x :: xs)
      | _, _ => None
      end
  end.



(** ** Invariants of the search *)

Section invariants.
Context (S : list string) (candidates : list Person.t).

(** Every required skill is a key, and the lists hold candidates only. *)
Definition count_inv (d : dict (list Person.t)) : Prop :=
  (∀ s, s ∈ S → s ∈ d.*1) ∧
  (∀ k v p, (k, v) ∈ d → p ∈ v → p ∈ candidates).

(** What the search keeps true of every team it stores. *)
Definition good_team (tm : team) : Prop :=
  covers S tm ∧ (∀ p, p ∈ tm → p ∈ candidates) ∧ name_sorted tm.

Definition teams_inv (teams : list team) : Prop :=
  NoDup teams ∧ Forall good_team teams.

Definition search_inv (st : Task.search_state) : Prop :=
  st.1.2 = team_skills S st.1.1 ∧ (∀ p, p ∈ st.1.1 → p ∈ candidates)
  ∧ teams_inv st.2.
End invariants.

(** ** Redundant members *)

(** Member [x] of a team with skills [ts] cannot be done without: what is
    left when one takes [x] out lacks a skill. *)
Definition needed (S : list string) (ts : gset string) (tm : team)
  (x : Person.t) : Prop :=
  ∀ rest, tm ≡ₚ x :: rest → team_skills S rest ≠ ts.

(** ** The objects and their store

    The functional model above takes persons whose fields have their
    documented types and hands every list over by value.  The model below
    keeps three things of the Python program that the functional one cannot
    express.  A field of a person or of a task may be [None], which is what
    a missing key of the input leaves, and what the code then does with it
    may raise.  The lists that the code builds and changes in place
    ([append], [remove], [sort]) are objects of a store, reached through
    references, so that a write through one reference is seen through every
    other.  And a set lists its elements in an order of its own, which
    depends on hashes and is not the program's to choose.

    Persons are kept as values: the class has no setter, [make_teams] assigns
    no attribute and applies only [set(...)] and [in] to a list of skills,
    and persons are compared with [__eq__] only.  Sets are kept as values
    too: every set of the program is made by [set()] or [set(...)], which
    copies, and is reached through one variable only, so that [update] on it
    is an assignment to that variable.  A dictionary keeps its keys in
    insertion order, as the language has it since Python 3.7.  A [for] loop
    over a list goes through the elements the list has when the loop starts:
    the program changes no list while it iterates over it (the pruning loop
    iterates over [removed] and changes [team]). *)

Module Imp.

(** A person object whose fields, where they are present, have the
    documented types; [None] is the value of a missing key. *)
Record person := Person {
  p_name : option string;
  p_salary : option Z;
  p_skills : option (list string)
}.

(** [__eq__] *)
#[global] Instance person_eq_dec : EqDecision person.
Proof. solve_decision. Defined.

(** The object of a typed person. *)
Definition of_typed (p : Person.t) : person :=
  Person (Some (Person.name p)) (Some (Person.salary p))
    (Some (Person.skills p)).

(** The object [Person.__init__] has built, when each field is missing or
    has its documented type. *)
Definition of_obj (o : Person.obj) : option person :=
  match Person.obj_name o, Person.obj_salary o, Person.obj_skills o with
  | (VNone | VStr _) as n, (VNone | VInt _) as s, (VNone | VList _) as l =>
      match (if l is VList vs then Some <$> read_list as_str vs
             else Some None) with
      | Some skills =>
          Some (Person (if n is VStr x then Some x else None)
                  (if s is VInt z then Some z else None) skills)
      | None => None
      end
  | _, _, _ => None
  end.

(** References to list objects. *)
Abbreviation loc := nat.

(** The store: the list object behind each reference, and the next
    reference to give out. *)
Record heap := Heap { cell : loc → list person; next : loc }.

(** A new list object. *)
Definition alloc (l : list person) (h : heap) : loc * heap :=
  (next h, Heap (<[next h := l]> (cell h)) (S (next h))).

(** A list object changed in place. *)
Definition store (a : loc) (l : list person) (h : heap) : heap :=
  Heap (<[a := l]> (cell h)) (next h).

(** [h'] is [h] but for the list object [a], which an operation has changed
    in place. *)
Definition only (a : loc) (h h' : heap) : Prop :=
  next h' = next h ∧ ∀ b, b ≠ a → cell h' b = cell h b.

(** [h'] is [h] and one new list object [a]. *)
Definition fresh (a : loc) (h h' : heap) : Prop :=
  a = next h ∧ next h' = S (next h) ∧ ∀ b, b ≠ a → cell h' b = cell h b.

(** Every list object with a reference below [n] is in [h'] what it is in
    [h], and no reference has been given up. *)
Definition ext (n : loc) (h h' : heap) : Prop :=
  (next h ≤ next h')%nat ∧ ∀ a, (a < n)%nat → cell h' a = cell h a.

(** A task object; [t_teams] is the list of the references to its teams. *)
Record task := Task {
  t_name : option string;
  t_skills : option (list string);
  t_teams : list loc
}.

(** The object [Task.__init__] has built, when each field is missing or has
    its documented type. *)
Definition task_of_obj (o : Task.obj) : option task :=
  match Task.obj_name o, Task.obj_skills o with
  | (VNone | VStr _) as n, (VNone | VList _) as l =>
      match (if l is VList vs then Some <$> read_list as_str vs
             else Some None) with
      | Some skills =>
          Some (Task (if n is VStr x then Some x else None) skills [])
      | None => None
      end
  | _, _ => None
  end.

(** The object of a typed task whose teams are the given objects. *)
Definition task_of_typed (self : Task.t) (teams : list loc) : task :=
  Task (Some (Task.name self)) (Some (Task.skills self)) teams.

(** [[x for x in l if f(x)]] where [f] may raise. *)
Fixpoint filter_result {A} (f : A → result bool) (l : list A)
  : result (list A) :=
  match l with
  | [] => Ok []
  | x :: l' =>
      b ← f x; ys ← filter_result f l'; Ok (if b : bool then x :: ys else ys)
  end.

(** [list.sort] with a comparison that may raise.  A sort has to compare each
    element of a list of two or more at least once, and so does the
    insertion below: the one raises exactly when the other does. *)
Section stable_sort_r.
Context {A : Type} (lt : A → A → result bool).

Fixpoint insert_sorted_r (x : A) (l : list A) : result (list A) :=
  match l with
  | [] => Ok [x]
  | y :: l' =>
      b ← lt y x;
      if b : bool then l'' ← insert_sorted_r x l'; Ok (y :: l'')
      else Ok (x :: y :: l')
  end.

Fixpoint stable_sort_r (l : list A) : result (list A) :=
  match l with
  | [] => Ok []
  | x :: l' => s ← stable_sort_r l'; insert_sorted_r x s
  end.
End stable_sort_r.

(** [__lt__]: [<] on the names, a [TypeError] when one is [None]. *)
Definition lt (self other : person) : result bool :=
  match p_name self, p_name other with
  | Some x, Some y => Ok (String.ltb x y)
  | _, _ => Raise TypeError
  end.

(** [sum([person.salary for person in team])] *)
Definition price (tm : list person) : result Z :=
  for_each
    (λ acc p, if p_salary p is Some z then Ok (acc + z) else Raise TypeError)
    tm 0.

(** [skill in p.skills] *)
Definition has_skill (skill : string) (p : person) : result bool :=
  if p_skills p is Some l then Ok (bool_decide (skill ∈ l))
  else Raise TypeError.

(** [for s in self.skills] *)
Definition iter_skills (S : option (list string)) : result (list string) :=
  if S is Some l then Ok l else Raise TypeError.

(** [d[k]] *)
Definition dict_get {V} (d : dict V) (k : string) : result V :=
  if dict_lookup d k is Some v then Ok v else Raise KeyError.

Section sets.
(** The order in which a set with the given elements lists them. *)
Context (order : list string → list string).

(** A set, as the list of its elements in its own order. *)
Definition pyset : Type := list string.

(** [set()] *)
Definition set_empty : pyset := order [].

(** [set(l)] *)
Definition set_of (l : list string) : pyset := order (remove_dups l).

(** [set(x)] where [x] may be [None] *)
Definition set_arg (x : option (list string)) : result pyset :=
  if x is Some l then Ok (set_of l) else Raise TypeError.

(** [a & b] *)
Definition set_and (a b : pyset) : pyset := order (filter (.∈ b) a).

(** [a.update(b)] *)
Definition set_update (a b : pyset) : pyset := order (remove_dups (a ++ b)).

(** [a == b] *)
Definition set_eq (a b : pyset) : bool := bool_decide (a ⊆ b ∧ b ⊆ a).

(** [a.issubset(b)] *)
Definition set_issubset (a b : pyset) : bool := bool_decide (a ⊆ b).

(** The set object [a] holds the elements of [X]. *)
Definition rep (a : pyset) (X : gset string) : Prop := ∀ x, x ∈ a ↔ x ∈ X.

(** Two set objects with the same elements. *)
Definition same (a b : pyset) : Prop := ∀ x, x ∈ a ↔ x ∈ b.

Section make_teams.
(** [self.skills] *)
Context (S : option (list string)).

(** [set(p.skills) & set(self.skills)] *)
Definition relevant (p : person) : result pyset :=
  a ← set_arg (p_skills p); b ← set_arg S; Ok (set_and a b).

(** [[p for p in people if set(self.skills) & set(p.skills)]] *)
Definition people_have_skills (people : loc) (h : heap)
  : result (loc * heap) :=
  l ← filter_result
        (λ p, a ← set_arg S; b ← set_arg (p_skills p);
              Ok (bool_decide (set_and a b ≠ [])))
        (cell h people);
  Ok (alloc l h).

(** [{s: [] for s in self.skills}]: a new list for each skill. *)
Definition count_init (skills : list string) (h : heap) : dict loc * heap :=
  foldl (λ dh s, (dict_set dh.1 s (next dh.2), (alloc [] dh.2).2))
    ([], h) skills.

(** The dictionary [skills_count] once both loops over it have run. *)
Definition skills_count (candidates : loc) (h : heap)
  : result (dict loc * heap) :=
  skills ← iter_skills S;
  let dh := count_init skills h in
  h' ← for_each
         (λ h p,
            skills ← iter_skills S;
            for_each
              (λ h skill,
                 b ← has_skill skill p;
                 if b : bool then
                   a ← dict_get dh.1 skill; Ok (store a (cell h a ++ [p]) h)
                 else Ok h)
              skills h)
         (cell dh.2 candidates) dh.2;
  Ok (dh.1, h').

(** [[count[0] for skill, count in skills_count.items() if len(count) == 1]] *)
Definition people_with_unique_skills (d : dict loc) (h : heap)
  : loc * heap :=
  alloc
    (omap (λ item, if decide (length (cell h item.2) = 1%nat)
                   then head (cell h item.2) else None) d)
    h.

(** [ts = set(); for p in t: ts.update(set(p.skills) & set(self.skills))] *)
Definition team_skills (tm : list person) : result pyset :=
  for_each (λ ts p, r ← relevant p; Ok (set_update ts r)) tm set_empty.

(** [if team not in teams: teams.append(team)] for the list [tm] behind the
    reference [a]. *)
Definition add_team (a : loc) (teams : list loc) (h : heap) : list loc :=
  if decide (cell h a ∈ cell h <$> teams) then teams else teams ++ [a].

Section search.
(** The reference to [people_with_unique_skills]. *)
Context (unique : loc).

(** The local function [init]: the team is a copy. *)
Definition init (curr : person) (h : heap) : result (loc * pyset * heap) :=
  let th := alloc (cell h unique) h in
  let h' := if decide (curr ∈ cell th.2 unique) then th.2
            else store th.1 (cell th.2 th.1 ++ [curr]) th.2 in
  ts ← team_skills (cell h' th.1);
  Ok (th.1, ts, h').

(** The skills of everyone in the team but member [i]. *)
Definition skills_except (tm : list person) (i : nat) : result pyset :=
  for_each
    (λ ts j,
       if decide (i = j) then Ok ts
       else match tm !! j with
            | Some q => r ← relevant q; Ok (set_update ts r)
            | None => Ok ts
            end)
    (seq 0 (length tm)) set_empty.

(** The list [removed], a new object, filled by [append]. *)
Definition redundant (t : loc) (teams_skills : pyset) (h : heap)
  : result (loc * heap) :=
  let rh := alloc [] h in
  h' ← for_each
         (λ h i,
            ts ← skills_except (cell h t) i;
            if set_eq ts teams_skills then
              Ok (if cell h t !! i is Some x
                  then store rh.1 (cell h rh.1 ++ [x]) h else h)
            else Ok h)
         (seq 0 (length (cell rh.2 t))) rh.2;
  Ok (rh.1, h').

(** [for r in removed: team.remove(r); ...; team.append(r)] on the team
    object itself. *)
Definition prune (removed t : loc) (teams_skills : pyset) (h : heap)
  : result heap :=
  for_each
    (λ h r,
       l ← list_remove_first r (cell h t);
       let h1 := store t l h in
       ts ← team_skills (cell h1 t);
       if set_eq ts teams_skills then Ok h1
       else Ok (store t (cell h1 t ++ [r]) h1))
    (cell h removed) h.

(** [team.sort()], in place. *)
Definition sort_team (t : loc) (h : heap) : result heap :=
  l ← stable_sort_r lt (cell h t); Ok (store t l h).

(** The state of the inner loop: the references [team] and [teams], the set
    [teams_skills] and the store. *)
Definition search_state : Type := loc * pyset * list loc * heap.

(** The body of [for other_person in people_have_skills]. *)
Definition inner_body (current_person : person) (st : search_state)
  (other_person : person) : result (search_state * flow) :=
  let '(t, teams_skills, teams, h) := st in
  if decide (other_person = current_person ∨ other_person ∈ cell h t)
  then Ok (st, Continue)
  else
    other_person_skills ← relevant other_person;
    all ← set_arg S;
    if set_eq other_person_skills all then
      let th := alloc [other_person] h in
      if decide (cell th.2 th.1 ∈ cell th.2 <$> teams)
      then Ok ((th.1, teams_skills, teams, th.2), Break)
      else
        let ch := alloc (cell th.2 th.1) th.2 in
        Ok ((th.1, teams_skills, teams ++ [ch.1], ch.2), Break)
    else
      let '(teams_skills, h) :=
        if set_issubset other_person_skills teams_skills
        then (teams_skills, h)
        else (set_update teams_skills other_person_skills,
              store t (cell h t ++ [other_person]) h) in
      all ← set_arg S;
      if set_eq teams_skills all then
        rh ← redundant t teams_skills h;
        h ← prune rh.1 t teams_skills rh.2;
        h ← sort_team t h;
        let teams := add_team t teams h in
        r ← init current_person h;
        Ok ((r.1.1, r.1.2, teams, r.2), Continue)
      else Ok ((t, teams_skills, teams, h), Continue).

(** The body of [for current_person in people_have_skills]. *)
Definition outer_body (candidates : loc) (st : list loc * heap)
  (current_person : person) : result (list loc * heap) :=
  r ← init current_person st.2;
  all ← set_arg S;
  if set_eq r.1.2 all then
    h ← sort_team r.1.1 r.2;
    Ok (add_team r.1.1 st.1 h, h)
  else
    st' ← for_each_break (inner_body current_person) (cell r.2 candidates)
            (r.1.1, r.1.2, st.1, r.2);
    Ok (st'.1.2, st'.2).
End search.

(** [teams.sort(key=lambda team: sum(...))]: the keys are taken first, one
    for each team. *)
Definition sort_by_price (teams : list loc) (h : heap) : result (list loc) :=
  keys ← map_result (λ a, price (cell h a)) teams;
  Ok ((stable_sort (λ x y : Z * loc, x.1 <? y.1) (zip keys teams)).*2).

(** The local list [teams] when the search is over, before it is ranked. *)
Definition found_teams (people : loc) (h : heap)
  : result (list loc * heap) :=
  ch ← people_have_skills people h;
  dh ← skills_count ch.1 ch.2;
  let uh := people_with_unique_skills dh.1 dh.2 in
  for_each (outer_body uh.1 ch.1) (cell uh.2 ch.1) ([], uh.2).
End make_teams.

(** [make_teams]: the task object and the store as the call leaves them. *)
Definition make_teams (self : task) (people : loc) (h : heap)
  : result (task * heap) :=
  r ← found_teams (t_skills self) people h;
  teams ← sort_by_price r.1 r.2;
  Ok (Task (t_name self) (t_skills self) teams, r.2).

(** [for t in tasks: t.make_teams(people)] in [main], all tasks sharing the
    one list of people. *)
Definition make_all_teams (tasks : list task) (people : loc) (h : heap)
  : result (list task * heap) :=
  for_each
    (λ st t, r ← make_teams t people st.2; Ok (st.1 ++ [r.1], r.2))
    tasks ([], h).
End sets.

(** The teams of a task, read from the store. *)
Definition teams_of (self : task) (h : heap) : list (list person) :=
  cell h <$> t_teams self.

End Imp.

(** ** The store and the lists of the functional model

    What it means that the run on the store is at the point where the
    functional model is. *)

(** The list object [a] holds the persons of [tm]. *)
Definition holds (h : Imp.heap) (a : Imp.loc) (tm : team) : Prop :=
  Imp.cell h a = Imp.of_typed <$> tm.

(** The dictionary of list objects has the keys and the lists of [d]. *)
Definition dict_rel (h : Imp.heap) (d_i : dict Imp.loc)
  (d : dict (list Person.t)) : Prop :=
  Forall2 (λ x y, x.1 = y.1 ∧ holds h x.2 y.2) d_i d.

(** The team objects hold the teams, and all of them are allocated. *)
Definition teams_rel (h : Imp.heap) (locs : list Imp.loc)
  (teams : list team) : Prop :=
  Forall2 (holds h) locs teams ∧ Forall (λ a, a < Imp.next h)%nat locs.

(** The state of the inner loop: the team worked on is an object of its own,
    newer than the teams stored and than the list of unique-skill people. *)
Definition inner_rel (u : Imp.loc) (unique : list Person.t)
  (st : Task.search_state) (st_i : Imp.search_state) : Prop :=
  holds st_i.2 st_i.1.1.1 st.1.1
  ∧ Imp.rep st_i.1.1.2 st.1.2
  ∧ Forall2 (holds st_i.2) st_i.1.2 st.2
  ∧ Forall (λ a, a < st_i.1.1.1)%nat st_i.1.2
  ∧ (u < st_i.1.1.1)%nat ∧ (st_i.1.1.1 < Imp.next st_i.2)%nat
  ∧ holds st_i.2 u unique.

(** The task object [t'] is the task [t] with the teams that [make_teams]
    finds for [t] on the people [P]. *)
Definition task_rel (P : list Person.t) (h : Imp.heap) (t : Task.t)
  (t' : Imp.task) : Prop :=
  ∃ teams,
    Task.make_teams t P = Ok (Task.mk (Task.name t) (Task.skills t) teams, P)
    ∧ t' = Imp.task_of_typed t (Imp.t_teams t')
    ∧ teams_rel h (Imp.t_teams t') teams.

(** ** Two runs

    Two computations end alike: both raise the same exception, or both
    return, with results that are related. *)

Definition result_rel {A B} (R : A → B → Prop) (r1 : result A)
  (r2 : result B) : Prop :=
  match r1, r2 with
  | Ok a, Ok b => R a b
  | Raise e1, Raise e2 => e1 = e2
  | _, _ => False
  end.

(** Two states of the inner loop that differ in the order of the set only. *)
Definition same_state (st1 st2 : Imp.search_state) : Prop :=
  st1.1.1.1 = st2.1.1.1 ∧ Imp.same st1.1.1.2 st2.1.1.2
  ∧ st1.1.2 = st2.1.2 ∧ st1.2 = st2.2.

(** * Properties *)

(** ** The result monad and the loops *)

(** A loop whose body keeps an invariant and never raises returns a state
    that satisfies the invariant. *)
Lemma for_each_inv {A St} (I : St → Prop) (body : St → A → result St) l st :
  (∀ st x, x ∈ l → I st → ∃ st', body st x = Ok st' ∧ I st') →
  I st → ∃ st', for_each body l st = Ok st' ∧ I st'.
Proof.
  revert st. induction l as [|x l IH]; intros st Hbody Hst; simpl.
  - eauto.
  - destruct (Hbody st x) as (st1 & -> & Hst1); [left | done |]. simpl.
    apply IH; [|done]. intros st2 y Hy. apply Hbody. by right.
Qed.

(** With [break] the invariant [I] holds while the loop goes on, and [J] holds
    of the state it ends in. *)
Lemma for_each_break_inv {A St} (I J : St → Prop)
  (body : St → A → result (St * flow)) l st :
  (∀ st, I st → J st) →
  (∀ st x, x ∈ l → I st →
           ∃ r, body st x = Ok r ∧ if r.2 is Continue then I r.1 else J r.1) →
  I st → ∃ st', for_each_break body l st = Ok st' ∧ J st'.
Proof.
  intros HIJ. revert st. induction l as [|x l IH]; intros st Hbody Hst; simpl.
  - eauto.
  - destruct (Hbody st x) as ([st1 fl] & -> & Hst1); [left | done |]. simpl.
    destruct fl; [|by eauto].
    apply IH; [|done]. intros st2 y Hy. apply Hbody. by right.
Qed.

(** ** Stable sorting *)

Section stable_sort_facts.
Context {A : Type} (lt : A → A → bool).

Lemma insert_sorted_perm x l : insert_sorted lt x l ≡ₚ x :: l.
Proof.
  induction l as [|y l IH]; simpl; [done|].
  destruct (lt y x); [|done]. rewrite IH. apply Permutation_swap.
Qed.

Lemma stable_sort_perm l : stable_sort lt l ≡ₚ l.
Proof.
  induction l as [|x l IH]; simpl; [done|].
  by rewrite insert_sorted_perm, IH.
Qed.

Lemma insert_sorted_hd_rel a x l :
  not_after lt a x → HdRel (not_after lt) a l →
  HdRel (not_after lt) a (insert_sorted lt x l).
Proof.
  intros Hax Hal. destruct l as [|y l]; simpl; [by constructor|].
  destruct (lt y x); constructor; [|done].
  by apply HdRel_inv in Hal.
Qed.

Lemma insert_sorted_sorted x l :
  (∀ a b, lt a b = true → lt b a = false) →
  Sorted (not_after lt) l → Sorted (not_after lt) (insert_sorted lt x l).
Proof.
  intros Hasym. induction 1 as [|y l Hl IH Hy]; simpl.
  - repeat constructor.
  - destruct (lt y x) eqn:Hyx.
    + constructor; [done|]. apply insert_sorted_hd_rel; [|done].
      by apply Hasym.
    + constructor; [by constructor|]. by constructor.
Qed.

Lemma stable_sort_sorted l :
  (∀ a b, lt a b = true → lt b a = false) →
  Sorted (not_after lt) (stable_sort lt l).
Proof.
  intros Hasym. induction l as [|x l IH]; simpl; [constructor|].
  by apply insert_sorted_sorted.
Qed.

(** Stability: a class of elements none of which is less than another
    keeps its order. *)
Lemma insert_sorted_filter (P : A → Prop) `{!∀ a, Decision (P a)} x l :
  (∀ a b, P a → P b → lt a b = false) →
  filter P (insert_sorted lt x l) = filter P (x :: l).
Proof.
  intros Hclass. induction l as [|y l IH]; simpl; [done|].
  destruct (lt y x) eqn:Hyx; [|done].
  rewrite filter_cons, IH, !filter_cons.
  destruct (decide (P y)) as [Hy|Hy], (decide (P x)) as [Hx|Hx]; try done.
  by rewrite Hclass in Hyx.
Qed.

Lemma stable_sort_filter (P : A → Prop) `{!∀ a, Decision (P a)} l :
  (∀ a b, P a → P b → lt a b = false) →
  filter P (stable_sort lt l) = filter P l.
Proof.
  intros Hclass. induction l as [|x l IH]; simpl; [done|].
  rewrite insert_sorted_filter, !filter_cons by done. by rewrite IH.
Qed.

End stable_sort_facts.

Lemma Person_lt_asym a b : Person.lt a b = true → Person.lt b a = false.
Proof.
  unfold Person.lt, String.ltb. rewrite (String.compare_antisym (Person.name b)).
  by destruct (String.compare (Person.name a) (Person.name b)).
Qed.

Lemma sort_team_perm tm : sort_team tm ≡ₚ tm.
Proof. apply stable_sort_perm. Qed.

Lemma sort_team_sorted tm : name_sorted (sort_team tm).
Proof. apply stable_sort_sorted, Person_lt_asym. Qed.

(** ** Skill sets *)

Lemma elem_of_relevant S p s :
  s ∈ relevant S p ↔ s ∈ Person.skills p ∧ s ∈ S.
Proof. unfold relevant. set_solver. Qed.

Lemma elem_of_team_skills S tm s :
  s ∈ team_skills S tm ↔ ∃ p, p ∈ tm ∧ s ∈ relevant S p.
Proof.
  unfold team_skills.
  cut (∀ acc : gset string,
         s ∈ foldl (λ ts p, ts ∪ relevant S p) acc tm
         ↔ s ∈ acc ∨ ∃ p, p ∈ tm ∧ s ∈ relevant S p).
  { intros ->. set_solver. }
  induction tm as [|q tm IH]; intros acc; simpl.
  - set_solver.
  - rewrite IH. set_solver.
Qed.

Lemma team_skills_perm S tm tm' :
  tm ≡ₚ tm' → team_skills S tm = team_skills S tm'.
Proof.
  intros Hp. apply set_eq. intros s. rewrite !elem_of_team_skills.
  by setoid_rewrite Hp.
Qed.

Lemma team_skills_snoc S tm p :
  team_skills S (tm ++ [p]) = team_skills S tm ∪ relevant S p.
Proof. unfold team_skills. by rewrite foldl_app. Qed.

Lemma covers_team_skills S tm :
  covers S tm ↔ team_skills S tm = list_to_set S.
Proof.
  unfold covers.
  assert (⋃ ((λ p, list_to_set (Person.skills p)) <$> tm) ∩ list_to_set S
          = team_skills S tm) as ->; [|done].
  apply set_eq. intros s.
  rewrite elem_of_team_skills, elem_of_intersection, elem_of_union_list.
  setoid_rewrite elem_of_relevant. setoid_rewrite list_elem_of_fmap.
  rewrite elem_of_list_to_set. split.
  - intros [(X & (p & -> & Hp) & Hs) HS]. exists p.
    by rewrite elem_of_list_to_set in Hs.
  - intros (p & Hp & Hs & HS). split; [|done].
    exists (list_to_set (Person.skills p)). split; [by exists p|].
    by rewrite elem_of_list_to_set.
Qed.

(** ** Lists and dictionaries *)

Lemma list_remove_first_Ok {X} `{EqDecision X} (x : X) l :
  x ∈ l → ∃ l', list_remove_first x l = Ok l' ∧ l ≡ₚ x :: l'.
Proof.
  induction l as [|y l IH]; intros Hx; simpl.
  - by apply elem_of_nil in Hx.
  - destruct (decide (y = x)) as [->|Hne]; [by eauto|].
    apply elem_of_cons in Hx as [->|Hx]; [done|].
    destruct (IH Hx) as (l' & -> & Hl'). simpl.
    eexists; split; [done|]. rewrite Hl'. apply Permutation_swap.
Qed.

Lemma dict_set_keys {V} (d : dict V) k v k' :
  k' ∈ (dict_set d k v).*1 ↔ k' = k ∨ k' ∈ d.*1.
Proof.
  induction d as [|[k0 v0] d IH]; simpl.
  - set_solver.
  - destruct (decide (k0 = k)) as [->|?]; simpl; [set_solver|].
    rewrite !elem_of_cons, IH. naive_solver.
Qed.

Lemma dict_set_items {V} (d : dict V) k v k' v' :
  (k', v') ∈ dict_set d k v → (k', v') ∈ d ∨ v' = v.
Proof.
  induction d as [|[k0 v0] d IH]; simpl.
  - rewrite list_elem_of_singleton. naive_solver.
  - destruct (decide (k0 = k)) as [->|?]; rewrite !elem_of_cons; naive_solver.
Qed.

Lemma dict_append_Ok {X} (d : dict (list X)) k x :
  k ∈ d.*1 →
  ∃ d', dict_append d k x = Ok d' ∧ d'.*1 = d.*1 ∧
        ∀ k' v', (k', v') ∈ d' →
                 ∃ v, (k', v) ∈ d ∧ (v' = v ∨ v' = v ++ [x]).
Proof.
  induction d as [|[k0 v0] d IH]; simpl; intros Hk.
  - by apply elem_of_nil in Hk.
  - destruct (decide (k0 = k)) as [->|Hne].
    + eexists; split; [done|]. split; [done|]. intros k' v'.
      rewrite elem_of_cons. intros [[= -> ->]|?].
      * exists v0. split; [left|]; auto.
      * exists v'. split; [by right|]; auto.
    + apply elem_of_cons in Hk as [->|Hk]; [done|].
      destruct (IH Hk) as (d' & -> & Hkeys & Hitems). simpl.
      eexists; split; [done|]. split; [by rewrite !fmap_cons, Hkeys|]. intros k' v'.
      rewrite elem_of_cons. intros [[= -> ->]|Hin].
      * exists v0. split; [left|]; auto.
      * destruct (Hitems _ _ Hin) as (v & ? & ?).
        exists v. split; [by right|]; auto.
Qed.

(** Picking elements of a list by index, in index order, gives a sublist. *)
Lemma omap_lookup_sublist {X} (Q : nat → Prop) `{!∀ i, Decision (Q i)}
  (pre l : list X) :
  omap (λ i, if decide (Q i) then (pre ++ l) !! i else None)
    (seq (length pre) (length l)) `sublist_of` l.
Proof.
  revert pre. induction l as [|x l IH]; intros pre; simpl; [done|].
  specialize (IH (pre ++ [x])).
  rewrite <-(assoc_L (++)), length_app, Nat.add_1_r in IH. simpl in IH.
  rewrite list_lookup_middle by done.
  destruct (decide (Q (length pre))); by constructor.
Qed.

(** ** Adding a team *)

Lemma add_team_NoDup tm teams :
  NoDup teams → NoDup (Task.add_team tm teams).
Proof.
  intros Hnd. unfold Task.add_team. destruct (decide (tm ∈ teams)); [done|].
  apply NoDup_app. split_and!; [done| |apply NoDup_singleton].
  by intros t Ht ->%list_elem_of_singleton.
Qed.

Lemma add_team_Forall (P : team → Prop) tm teams :
  P tm → Forall P teams → Forall P (Task.add_team tm teams).
Proof.
  intros Htm Hteams. unfold Task.add_team.
  destruct (decide (tm ∈ teams)); [done|].
  apply Forall_app. by split; [|constructor].
Qed.

(** ** Pruning *)

Lemma redundant_sublist S tm ts : Task.redundant S tm ts `sublist_of` tm.
Proof.
  apply (omap_lookup_sublist (λ i, Task.skills_except S tm i = ts) [] tm).
Qed.

(** Every [team.remove(r)] of the pruning loop finds [r] in the team, and the
    loop keeps the skills of the team. *)
Lemma prune_Ok S removed tm ts :
  removed ⊆+ tm → team_skills S tm = ts →
  ∃ tm', Task.prune S removed tm ts = Ok tm' ∧ team_skills S tm' = ts
         ∧ ∀ p, p ∈ tm' → p ∈ tm.
Proof.
  unfold Task.prune. revert tm.
  induction removed as [|r removed IH]; intros tm Hsub Hts; simpl.
  - by exists tm.
  - apply submseteq_cons_l in Hsub as (k & Hk & Hsub).
    destruct (list_remove_first_Ok r tm) as (tm1 & -> & Htm1).
    { rewrite Hk. left. }
    simpl. assert (removed ⊆+ tm1) as Hsub1.
    { rewrite Hk in Htm1. apply Permutation_cons_inv in Htm1.
      by rewrite <-Htm1. }
    assert (tm1 ++ [r] ≡ₚ tm) as Hback.
    { by rewrite Htm1, Permutation_app_comm. }
    destruct (decide (team_skills S tm1 ≠ ts)) as [Hne|Heq]; simpl.
    + destruct (IH (tm1 ++ [r])) as (tm' & -> & ? & Hin).
      * by apply submseteq_inserts_r.
      * by rewrite (team_skills_perm _ _ _ Hback).
      * exists tm'. split_and!; [done..|].
        intros p Hp. rewrite <-Hback. auto.
    + destruct (IH tm1) as (tm' & -> & ? & Hin); [done| |].
      * by destruct (decide (team_skills S tm1 = ts)); [|exfalso; auto].
      * exists tm'. split_and!; [done..|].
        intros p Hp. rewrite Htm1. right. auto.
Qed.

(** ** The people with a unique skill *)

Section skills_count.
Context (S : list string) (candidates : list Person.t).
Local Abbreviation count_inv := (count_inv S candidates).

Lemma count_inv_init : count_inv (foldl (λ d s, dict_set d s []) [] S).
Proof.
  cut (∀ (l : list string) (d : dict (list Person.t)),
         (∀ k v p, (k, v) ∈ d → p ∈ v → p ∈ candidates) →
         (∀ s, s ∈ l ∨ s ∈ d.*1 → s ∈ (foldl (λ d s, dict_set d s []) d l).*1)
         ∧ (∀ k v p, (k, v) ∈ foldl (λ d s, dict_set d s []) d l →
                     p ∈ v → p ∈ candidates)).
  { intros H. destruct (H S []) as [Hk Hv].
    - by intros ??? ?%elem_of_nil.
    - split; [|done]. intros s Hs. apply Hk. by left. }
  induction l as [|s l IH]; intros d Hd; simpl.
  - split; [|done]. by intros s [?%elem_of_nil|?].
  - destruct (IH (dict_set d s [])) as [Hk Hv].
    + intros k v p [?| ->]%dict_set_items Hp; [by eauto|].
      by apply elem_of_nil in Hp.
    + split; [|done]. intros s' Hs'. apply Hk.
      rewrite dict_set_keys. rewrite elem_of_cons in Hs'. naive_solver.
Qed.

Lemma count_inv_append d skill p :
  p ∈ candidates → skill ∈ S → count_inv d →
  ∃ d', dict_append d skill p = Ok d' ∧ count_inv d'.
Proof.
  intros Hp Hskill [Hk Hv].
  destruct (dict_append_Ok d skill p) as (d' & -> & Hkeys & Hitems); [auto|].
  exists d'. split; [done|]. split.
  - intros s Hs. rewrite Hkeys. auto.
  - intros k v' q Hin Hq. destruct (Hitems _ _ Hin) as (v & Hv0 & [->| ->]).
    + eauto.
    + apply elem_of_app in Hq as [?| ->%list_elem_of_singleton]; eauto.
Qed.

Lemma skills_count_Ok :
  ∃ d, Task.skills_count S candidates = Ok d ∧ count_inv d.
Proof.
  unfold Task.skills_count.
  apply (for_each_inv count_inv); [|apply count_inv_init].
  intros d p Hp Hd. apply (for_each_inv count_inv); [|done].
  intros d' skill Hskill Hd'.
  destruct (decide (skill ∈ Person.skills p)); [|by eauto].
  by apply count_inv_append.
Qed.

Lemma people_with_unique_skills_candidates d p :
  count_inv d → p ∈ Task.people_with_unique_skills d → p ∈ candidates.
Proof.
  intros [_ Hv]. unfold Task.people_with_unique_skills.
  rewrite list_elem_of_omap. intros ([k v] & Hin & Hsome). simpl in Hsome.
  destruct (decide (length v = 1%nat)); [|done].
  destruct v as [|q v]; [done|]. injection Hsome as ->.
  apply (Hv k (p :: v)); [done|left].
Qed.
End skills_count.

(** ** The search *)

Section search_facts.
Context (S : list string) (candidates unique : list Person.t).
Hypothesis unique_candidates : ∀ p, p ∈ unique → p ∈ candidates.
Local Abbreviation good_team := (good_team S candidates).
Local Abbreviation teams_inv := (teams_inv S candidates).
Local Abbreviation search_inv := (search_inv S candidates).

Lemma teams_inv_add tm teams :
  good_team tm → teams_inv teams → teams_inv (Task.add_team tm teams).
Proof.
  intros Htm [Hnd Hall]. split.
  - by apply add_team_NoDup.
  - by apply add_team_Forall.
Qed.

Lemma good_team_sort tm :
  team_skills S tm = list_to_set S → (∀ p, p ∈ tm → p ∈ candidates) →
  good_team (sort_team tm).
Proof.
  intros Hts Hin. split_and!.
  - apply covers_team_skills.
    by rewrite (team_skills_perm _ _ _ (sort_team_perm tm)).
  - intros p. rewrite (sort_team_perm tm). auto.
  - apply sort_team_sorted.
Qed.

Lemma init_spec curr :
  curr ∈ candidates →
  (Task.init S unique curr).2 = team_skills S (Task.init S unique curr).1
  ∧ ∀ p, p ∈ (Task.init S unique curr).1 → p ∈ candidates.
Proof.
  intros Hcurr. unfold Task.init. simpl. split; [done|].
  destruct (decide (curr ∈ unique)); [done|].
  intros p [?| ->%list_elem_of_singleton]%elem_of_app; auto.
Qed.

Lemma inner_body_inv current_person st other_person :
  current_person ∈ candidates → other_person ∈ candidates → search_inv st →
  ∃ r, Task.inner_body S unique current_person st other_person = Ok r
       ∧ if r.2 is Continue then search_inv r.1 else teams_inv r.1.2.
Proof.
  intros Hcur Hother. destruct st as [[tm ts] teams].
  intros (Hts & Hin & Hteams). simpl in Hts, Hin, Hteams.
  unfold Task.inner_body.
  destruct (init_spec current_person Hcur) as [Hi1 Hi2].
  destruct (Task.init S unique current_person) as [tm3 ts3].
  simpl in Hi1, Hi2.
  destruct (decide (other_person = current_person ∨ other_person ∈ tm)).
  { eexists; split; [done|]. by split_and!. }
  destruct (decide (relevant S other_person = list_to_set S)) as [Hall|_].
  { eexists; split; [done|]. simpl.
    apply teams_inv_add; [|done]. split_and!.
    - apply covers_team_skills. unfold team_skills. simpl.
      by rewrite (left_id_L ∅ (∪)).
    - by intros p ->%list_elem_of_singleton.
    - repeat constructor. }
  set (st1 := if decide (relevant S other_person ⊆ ts) then (tm, ts)
              else (tm ++ [other_person], ts ∪ relevant S other_person)).
  assert (st1.2 = team_skills S st1.1 ∧ ∀ p, p ∈ st1.1 → p ∈ candidates)
    as [Hts1 Hin1].
  { unfold st1. destruct (decide (relevant S other_person ⊆ ts)); simpl.
    - done.
    - split; [by rewrite team_skills_snoc, Hts|].
      intros p [?| ->%list_elem_of_singleton]%elem_of_app; auto. }
  destruct st1 as [tm1 ts1]. simpl in Hts1, Hin1.
  destruct (decide (ts1 = list_to_set S)) as [Hfull|_].
  - destruct (prune_Ok S (Task.redundant S tm1 ts1) tm1 ts1)
      as (tm2 & -> & Hts2 & Hin2);
      [apply sublist_submseteq, redundant_sublist | done |].
    simpl. eexists; split; [done|]. split_and!; simpl; [done..|].
    apply teams_inv_add; [|done].
    apply good_team_sort; [congruence|auto].
  - eexists; split; [done|]. by split_and!.
Qed.

Lemma outer_body_inv teams current_person :
  current_person ∈ candidates → teams_inv teams →
  ∃ teams', Task.outer_body S unique candidates teams current_person
            = Ok teams' ∧ teams_inv teams'.
Proof.
  intros Hcur Hteams. unfold Task.outer_body.
  destruct (init_spec current_person Hcur) as [Hi1 Hi2].
  destruct (Task.init S unique current_person) as [tm ts].
  simpl in Hi1, Hi2.
  destruct (decide (ts = list_to_set S)) as [Hfull|_].
  - eexists; split; [done|].
    apply teams_inv_add; [|done]. apply good_team_sort; [congruence|done].
  - destruct (for_each_break_inv search_inv (λ st, teams_inv st.2)
                (Task.inner_body S unique current_person) candidates
                (tm, ts, teams)) as (st & -> & Hst).
    + by intros st (_ & _ & ?).
    + intros st x Hx Hst. by apply inner_body_inv.
    + by split_and!.
    + simpl. by eexists.
Qed.
End search_facts.

(** The search returns, and its teams are pairwise distinct, cover the task,
    are made of candidates and are sorted by name. *)
Lemma found_teams_Ok S people :
  ∃ teams, Task.found_teams S people = Ok teams
           ∧ teams_inv S (Task.people_have_skills S people) teams.
Proof.
  unfold Task.found_teams.
  destruct (skills_count_Ok S (Task.people_have_skills S people))
    as (d & -> & Hd). simpl.
  apply (for_each_inv (teams_inv S (Task.people_have_skills S people))).
  - intros teams p Hp Hteams. apply outer_body_inv; [|done..].
    intros q. by apply (people_with_unique_skills_candidates S).
  - split; constructor.
Qed.

(** ** Ranking by price *)

Lemma sort_by_price_perm teams : sort_by_price teams ≡ₚ teams.
Proof. apply stable_sort_perm. Qed.

Lemma sort_by_price_sorted teams :
  StronglySorted (λ t1 t2, price t1 ≤ price t2) (sort_by_price teams).
Proof.
  apply Sorted_StronglySorted.
  { intros t1 t2 t3. lia. }
  assert (Sorted (not_after (λ t1 t2, price t1 <? price t2))
            (sort_by_price teams)) as Hs.
  { apply stable_sort_sorted. intros a b. lia. }
  induction Hs as [|t l _ IH Hhd]; constructor; [done|].
  destruct Hhd as [|t' l Htt']; constructor.
  unfold not_after in Htt'. lia.
Qed.

Lemma sort_by_price_stable teams v :
  filter (λ t, price t = v) (sort_by_price teams)
  = filter (λ t, price t = v) teams.
Proof. apply stable_sort_filter. intros a b -> ->. lia. Qed.

(** ** [make_teams] *)

(** The call returns: it stores the ranked teams of the search and leaves the
    rest of the task and the people as they were. *)
Lemma make_teams_Ok self people :
  ∃ teams,
    Task.found_teams (Task.skills self) people = Ok teams
    ∧ teams_inv (Task.skills self)
        (Task.people_have_skills (Task.skills self) people) teams
    ∧ Task.make_teams self people
      = Ok (Task.mk (Task.name self) (Task.skills self) (sort_by_price teams),
            people).
Proof.
  destruct (found_teams_Ok (Task.skills self) people) as (teams & Hf & Hinv).
  exists teams. split_and!; [done..|].
  unfold Task.make_teams. by rewrite Hf.
Qed.

(** The task [Three] of the doctests on part of their roster: Mark alone
    cannot do it, Petya and Vitalya each can, and the cheaper one is first. *)
Example make_teams_Three :
  let Mark := Person.mk "Mark" 1500 ["js"; "python"] in
  let Vitalya := Person.mk "Vitalya" 3000 ["C++"; "postgresql"; "python"] in
  let Petya := Person.mk "Petya" 2500 ["C++"; "python"; "postgresql"] in
  let Justin := Person.mk "Justin" 1600 ["marketing"; "brand"] in
  Task.make_teams (Task.mk "Three" ["C++"; "python"] [])
    [Mark; Vitalya; Justin; Petya]
  = Ok (Task.mk "Three" ["C++"; "python"] [[Petya]; [Vitalya]],
        [Mark; Vitalya; Justin; Petya]).
Proof. by vm_compute. Qed.

Lemma people_have_skills_nil S people :
  S = [] ∨ (∀ p s, p ∈ people → s ∈ Person.skills p → s ∉ S) →
  Task.people_have_skills S people = [].
Proof.
  intros HS. unfold Task.people_have_skills.
  induction people as [|p people IH]; [done|].
  rewrite filter_cons, IH.
  - destruct (decide (relevant S p ≠ ∅)) as [Hne|]; [|done].
    exfalso. apply Hne. apply set_eq. intros s.
    rewrite elem_of_relevant. split; [|by intros ?%not_elem_of_empty].
    intros [Hp Hs]. destruct HS as [->|HS].
    + by apply elem_of_nil in Hs.
    + exfalso. apply (HS p s); [left|done..].
  - destruct HS as [->|HS]; [by left|]. right. intros q s Hq.
    apply HS. by right.
Qed.

(** C1: after [make_teams] every stored team covers the required skills: the
    union of its members' skills, intersected with the required skills, is
    the required skill set.  When no skill is required, or nobody in the
    roster has a required skill, no team is stored. *)
Theorem make_teams_covers self people :
  ∃ self',
    Task.make_teams self people = Ok (self', people)
    ∧ Forall (covers (Task.skills self)) (Task.teams self')
    ∧ (Task.skills self = []
       ∨ (∀ p s, p ∈ people → s ∈ Person.skills p → s ∉ Task.skills self) →
       Task.teams self' = []).
Proof.
  destruct (make_teams_Ok self people) as (teams & Hf & [_ Hgood] & ->).
  eexists; split_and!; [done| |]; simpl.
  - rewrite sort_by_price_perm.
    eapply Forall_impl; [done|]. by intros tm [? _].
  - intros Hnone%(people_have_skills_nil _ people).
    unfold Task.found_teams in Hf. rewrite Hnone in Hf. simpl in Hf.
    by injection Hf as <-.
Qed.


Lemma price_total_salary tm : price tm = total_salary tm.
Proof.
  unfold price.
  cut (∀ acc, foldl Z.add acc (Person.salary <$> tm) = acc + total_salary tm).
  { intros ->. lia. }
  induction tm as [|p tm IH]; intros acc; simpl; [lia|].
  rewrite IH. lia.
Qed.

(** C3: the stored list is the list of teams the search found, sorted by
    ascending total salary, the salaries of the members added up, and teams
    of equal total salary are in the order in which the search found
    them. *)
Theorem make_teams_ranked self people :
  ∃ found self',
    Task.found_teams (Task.skills self) people = Ok found
    ∧ Task.make_teams self people = Ok (self', people)
    ∧ Task.teams self' ≡ₚ found
    ∧ StronglySorted (λ t1 t2, total_salary t1 ≤ total_salary t2)
        (Task.teams self')
    ∧ ∀ v, filter (λ t, total_salary t = v) (Task.teams self')
           = filter (λ t, total_salary t = v) found.
Proof.
  destruct (make_teams_Ok self people) as (teams & Hf & _ & ->).
  eexists _, _; split_and!; [done..| | |]; simpl.
  - apply sort_by_price_perm.
  - induction (sort_by_price_sorted teams) as [|t l _ IH Hall];
      constructor; [done|].
    eapply Forall_impl; [done|]. intros t2. simpl.
    by rewrite !price_total_salary.
  - intros v.
    rewrite !(list_filter_iff (λ t, total_salary t = v) (λ t, price t = v))
      by (intros t; by rewrite price_total_salary).
    apply sort_by_price_stable.
Qed.

(** C4 (the seed of [init] is not deduplicated): with one person [A] who
    alone has both required skills [x] and [y], the list of people with a
    unique skill holds [A] twice, [init] starts the team as [[A; A]], and
    [make_teams] stores that team, whose price counts [A]'s salary twice. *)
Theorem init_seed_repeats_person :
  let A := Person.mk "A" 10 ["x"; "y"] in
  Task.skills_count ["x"; "y"] [A] = Ok [("x", [A]); ("y", [A])]
  ∧ Task.people_with_unique_skills [("x", [A]); ("y", [A])] = [A; A]
  ∧ (Task.init ["x"; "y"] [A; A] A).1 = [A; A]
  ∧ Task.make_teams (Task.mk "T" ["x"; "y"] []) [A]
    = Ok (Task.mk "T" ["x"; "y"] [[A; A]], [A])
  ∧ price [A; A] = 20.
Proof. by vm_compute. Qed.

(** C5: when a required skill is possessed by exactly one of the filtered
    candidates, that person is a member of every stored team. *)
Theorem unique_skill_person_in_every_team self people s p :
  s ∈ Task.skills self →
  p ∈ Task.people_have_skills (Task.skills self) people →
  s ∈ Person.skills p →
  (∀ q, q ∈ Task.people_have_skills (Task.skills self) people →
        s ∈ Person.skills q → q = p) →
  ∃ self',
    Task.make_teams self people = Ok (self', people)
    ∧ Forall (λ tm, p ∈ tm) (Task.teams self').
Proof.
  intros Hs Hp Hsp Honly.
  destruct (make_teams_Ok self people) as (teams & Hf & [_ Hgood] & ->).
  eexists; split; [done|]. simpl. rewrite sort_by_price_perm.
  eapply Forall_impl; [done|]. intros tm (Hcov & Hin & _). simpl.
  apply covers_team_skills in Hcov.
  assert (s ∈ team_skills (Task.skills self) tm) as Hmem.
  { rewrite Hcov. by apply elem_of_list_to_set. }
  apply elem_of_team_skills in Hmem as (q & Hq & [Hsq _]%elem_of_relevant).
  by rewrite <-(Honly q (Hin q Hq) Hsq).
Qed.

Lemma unique_skill_person_in_every_team_witness :
  let Justin := Person.mk "Justin" 1600 ["marketing"; "brand"] in
  let Mark := Person.mk "Mark" 1500 ["js"; "python"] in
  let Vasya := Person.mk "Vasya" 1500 ["mysql"] in
  ∃ self',
    Task.make_teams (Task.mk "One" ["brand"; "js"] []) [Mark; Vasya; Justin]
    = Ok (self', [Mark; Vasya; Justin])
    ∧ Forall (λ tm, Justin ∈ tm) (Task.teams self').
Proof.
  intros Justin Mark Vasya.
  apply (unique_skill_person_in_every_team _ _ "brand" Justin).
  - apply (bool_decide_unpack _). vm_compute. exact I.
  - apply (bool_decide_unpack _). vm_compute. exact I.
  - apply (bool_decide_unpack _). vm_compute. exact I.
  - apply (proj1 (Forall_forall
                    (λ q, "brand" ∈ Person.skills q → q = Justin) _)).
    apply (bool_decide_unpack _). vm_compute. exact I.
Defined.

(** C10: the teams [make_teams] stores depend on the skills of the task and
    on the people only: two tasks with the same skills, whatever their names
    and the teams they held before, end with the same teams. *)
Theorem make_teams_replaces_teams self1 self2 people :
  Task.skills self1 = Task.skills self2 →
  ∃ self1' self2',
    Task.make_teams self1 people = Ok (self1', people)
    ∧ Task.make_teams self2 people = Ok (self2', people)
    ∧ Task.teams self1' = Task.teams self2'.
Proof.
  intros Hskills.
  destruct (make_teams_Ok self1 people) as (teams1 & Hf1 & _ & Hm1).
  destruct (make_teams_Ok self2 people) as (teams2 & Hf2 & _ & Hm2).
  rewrite Hskills, Hf2 in Hf1. injection Hf1 as <-.
  eexists _, _; split_and!; [done..|]. done.
Qed.

Lemma make_teams_replaces_teams_witness :
  let Petya := Person.mk "Petya" 2500 ["C++"; "python"; "postgresql"] in
  let Mark := Person.mk "Mark" 1500 ["js"; "python"] in
  ∃ self1' self2',
    Task.make_teams (Task.mk "Three" ["C++"; "python"] []) [Mark; Petya]
    = Ok (self1', [Mark; Petya])
    ∧ Task.make_teams (Task.mk "Three" ["C++"; "python"] [[Mark]; [Mark; Petya]])
        [Mark; Petya]
      = Ok (self2', [Mark; Petya])
    ∧ Task.teams self1' = Task.teams self2'.
Proof.
  intros Petya Mark.
  apply (make_teams_replaces_teams
           (Task.mk "Three" ["C++"; "python"] [])
           (Task.mk "Three" ["C++"; "python"] [[Mark]; [Mark; Petya]])).
  reflexivity.
Defined.

(** ** Serialization *)





(** * Further properties of the code *)

(** ** The candidates *)

Lemma elem_of_people_have_skills S people p :
  p ∈ Task.people_have_skills S people
  ↔ p ∈ people ∧ ∃ s, s ∈ Person.skills p ∧ s ∈ S.
Proof.
  unfold Task.people_have_skills. rewrite list_elem_of_filter.
  split; intros [Hne Hp]; (split; [|done]) || split; try done.
  - apply set_choose_L in Hne as [s Hs]. exists s.
    by apply elem_of_relevant.
  - destruct Hp as (s & Hs & HS). intros Hempty.
    apply (not_elem_of_empty (C:=gset string) s). rewrite <-Hempty.
    by apply elem_of_relevant.
Qed.

(** The people left out have nothing to add to the skills of a team. *)
Lemma team_skills_people_have_skills S people :
  team_skills S (Task.people_have_skills S people) = team_skills S people.
Proof.
  apply set_eq. intros s. rewrite !elem_of_team_skills.
  split; intros (p & Hp & Hs); exists p; (split; [|done]).
  - by apply elem_of_people_have_skills in Hp as [? _].
  - apply elem_of_people_have_skills. split; [done|].
    apply elem_of_relevant in Hs as [? ?]. eauto.
Qed.

Lemma team_skills_subseteq S tm : team_skills S tm ⊆ list_to_set S.
Proof.
  intros s (p & _ & [_ Hs]%elem_of_relevant)%elem_of_team_skills.
  by apply elem_of_list_to_set.
Qed.

Lemma team_skills_mono S tm tm' :
  (∀ p, p ∈ tm → p ∈ tm') → team_skills S tm ⊆ team_skills S tm'.
Proof.
  intros Hsub s. rewrite !elem_of_team_skills.
  intros (p & Hp & Hs). eauto.
Qed.

(** ** The search finds a team whenever there is one *)

Lemma add_team_nonempty tm teams : Task.add_team tm teams ≠ [].
Proof.
  unfold Task.add_team. destruct (decide (tm ∈ teams)) as [Hin|_].
  - intros ->. by apply elem_of_nil in Hin.
  - by destruct teams.
Qed.

Section progress.
Context (S : list string) (candidates unique : list Person.t).
Context (current_person : Person.t).

Lemma init_member :
  current_person ∈ (Task.init S unique current_person).1.
Proof.
  unfold Task.init. simpl.
  destruct (decide (current_person ∈ unique)); [done|].
  apply elem_of_app. right. left.
Qed.

(** What one round of the inner loop does to the state: it leaves it alone
    for a person it skips, stores a team, or takes the person's skills
    in. *)
Lemma inner_body_cases st other_person r :
  Task.inner_body S unique current_person st other_person = Ok r →
  st.1.2 = team_skills S st.1.1 →
  (r = (st, Continue)
   ∧ (other_person = current_person ∨ other_person ∈ st.1.1))
  ∨ ((∃ tm, r.1.2 = Task.add_team tm st.2)
     ∧ (r.2 = Continue → r.1.1.2 = team_skills S r.1.1.1))
  ∨ (r.2 = Continue ∧ r.1.2 = st.2
     ∧ r.1.1.2 = team_skills S r.1.1.1
     ∧ r.1.1.2 ≠ list_to_set S
     ∧ st.1.2 ⊆ r.1.1.2 ∧ relevant S other_person ⊆ r.1.1.2
     ∧ ∀ p, p ∈ st.1.1 → p ∈ r.1.1.1).
Proof.
  destruct st as [[tm ts] teams]. simpl. intros Hbody Hts.
  unfold Task.inner_body in Hbody.
  destruct (decide (other_person = current_person ∨ other_person ∈ tm)).
  { left. by injection Hbody as <-. }
  right.
  destruct (decide (relevant S other_person = list_to_set S)).
  { left. injection Hbody as <-. split; [by eexists|done]. }
  destruct (decide (relevant S other_person ⊆ ts)) as [Hsub|Hnsub].
  - destruct (decide (ts = list_to_set S)).
    + left. destruct (Task.prune _ _ _ _) as [tm2|]; [|done].
      simpl in Hbody. unfold Task.init in Hbody.
      injection Hbody as <-. split; [by eexists|done].
    + right. injection Hbody as <-. simpl. by split_and!.
  - destruct (decide (ts ∪ relevant S other_person = list_to_set S)).
    + left. destruct (Task.prune _ _ _ _) as [tm2|]; [|done].
      simpl in Hbody. unfold Task.init in Hbody.
      injection Hbody as <-. split; [by eexists|done].
    + right. injection Hbody as <-. simpl. split_and!; try done.
      * by rewrite team_skills_snoc, Hts.
      * set_solver.
      * set_solver.
      * intros p Hp. apply elem_of_app. by left.
Qed.

(** What holds of the stored teams and is kept when one more is stored
    holds of them after the inner loop. *)
Lemma inner_loop_teams (P : list team → Prop) l st st' :
  (∀ tm teams, P teams → P (Task.add_team tm teams)) →
  for_each_break (Task.inner_body S unique current_person) l st = Ok st' →
  st.1.2 = team_skills S st.1.1 → P st.2 → P st'.2.
Proof.
  intros Hadd. revert st.
  induction l as [|o l IH]; intros st Hloop Hts HP; simpl in Hloop.
  - by injection Hloop as <-.
  - destruct (Task.inner_body _ _ _ _ _) as [r|] eqn:Hbody; [|done].
    simpl in Hloop.
    assert (P r.1.2 ∧ (r.2 = Continue → r.1.1.2 = team_skills S r.1.1.1))
      as [Hr Hrts].
    { destruct (inner_body_cases _ _ _ Hbody Hts)
        as [[-> _]|[[[tm Htm] ?]|(? & Heq & ? & _)]].
      - done.
      - rewrite Htm. split; [by apply Hadd|done].
      - by rewrite Heq. }
    destruct (r.2); [|by injection Hloop as <-].
    apply (IH r.1); auto.
Qed.
End progress.

Section completeness.
Context (S : list string) (candidates unique : list Person.t).

(** A scan that stores nothing has taken in the skills of everyone it went
    through. *)
Lemma inner_loop_progress current_person l st st' :
  for_each_break (Task.inner_body S unique current_person) l st = Ok st' →
  st.1.2 = team_skills S st.1.1 → current_person ∈ st.1.1 →
  st.1.2 ≠ list_to_set S →
  st'.2 ≠ []
  ∨ (st'.1.2 ≠ list_to_set S ∧ st'.1.2 ⊆ list_to_set S ∧ st.1.2 ⊆ st'.1.2
     ∧ ∀ o, o ∈ l → relevant S o ⊆ st'.1.2).
Proof.
  revert st. induction l as [|o l IH]; intros st Hloop Hts Hcur Hne;
    simpl in Hloop.
  - injection Hloop as <-. right. split_and!; [done| |done|].
    + rewrite Hts. apply team_skills_subseteq.
    + by intros o ?%elem_of_nil.
  - destruct (Task.inner_body _ _ _ _ _) as [r|] eqn:Hbody; [|done].
    simpl in Hloop.
    destruct (inner_body_cases _ _ _ _ _ _ Hbody Hts)
      as [[-> Hskip]|[[[tm Htm] Hrts]|(Hc & Hteams & Hrts & Hrne & Hsub & Ho & Hin)]].
    + simpl in Hloop.
      destruct (IH st Hloop Hts Hcur Hne) as [?|(? & ? & Hsub & Hl)]; [by left|].
      right. split_and!; [done..|].
      intros o' [->|?]%elem_of_cons; [|by auto].
      etrans; [|exact Hsub]. rewrite Hts. intros s Hs.
      apply elem_of_team_skills.
      destruct Hskip as [->|?]; eauto.
    + left. assert (r.1.2 ≠ []) as Hr.
      { rewrite Htm. apply add_team_nonempty. }
      destruct (r.2); [|by injection Hloop as <-].
      eapply (inner_loop_teams _ _ _ (λ teams, teams ≠ []));
        [intros; apply add_team_nonempty|done|auto|done].
    + rewrite Hc in Hloop.
      destruct (IH r.1 Hloop Hrts) as [?|(? & ? & Hsub' & Hl)];
        [auto|done|by left|].
      right. split_and!; [done..| |].
      * by etrans.
      * intros o' [->|?]%elem_of_cons; [by etrans|by auto].
Qed.

Hypothesis candidates_cover : team_skills S candidates = list_to_set S.

Lemma outer_body_stores teams current_person teams' :
  current_person ∈ candidates →
  Task.outer_body S unique candidates teams current_person = Ok teams' →
  teams' ≠ [].
Proof.
  intros Hcur Hbody. unfold Task.outer_body in Hbody.
  pose proof (init_member S unique current_person) as Hmem.
  assert ((Task.init S unique current_person).2
          = team_skills S (Task.init S unique current_person).1) as Hts
    by done.
  destruct (Task.init S unique current_person) as [tm ts].
  simpl in Hmem, Hts.
  destruct (decide (ts = list_to_set S)) as [|Hne].
  { injection Hbody as <-. apply add_team_nonempty. }
  destruct (for_each_break _ _ _) as [st'|] eqn:Hloop; [|done].
  injection Hbody as <-.
  destruct (inner_loop_progress _ _ _ _ Hloop Hts Hmem Hne)
    as [?|(Hne' & Hsub & _ & Hall)]; [done|].
  exfalso. apply Hne'. apply (anti_symm (⊆)); [done|].
  rewrite <-candidates_cover. intros s.
  rewrite elem_of_team_skills. intros (p & Hp & Hs). by apply (Hall p).
Qed.

Lemma outer_body_teams (P : list team → Prop) teams current_person teams' :
  (∀ tm teams, P teams → P (Task.add_team tm teams)) →
  Task.outer_body S unique candidates teams current_person = Ok teams' →
  P teams → P teams'.
Proof.
  intros Hadd Hbody HP. unfold Task.outer_body in Hbody.
  assert ((Task.init S unique current_person).2
          = team_skills S (Task.init S unique current_person).1) as Hts
    by done.
  destruct (Task.init S unique current_person) as [tm ts]. simpl in Hts.
  destruct (decide (ts = list_to_set S)).
  { injection Hbody as <-. by apply Hadd. }
  destruct (for_each_break _ _ _) as [st'|] eqn:Hloop; [|done].
  injection Hbody as <-.
  by apply (inner_loop_teams _ _ _ P _ _ _ Hadd Hloop).
Qed.

Lemma outer_loop_teams (P : list team → Prop) l teams teams' :
  (∀ tm teams, P teams → P (Task.add_team tm teams)) →
  for_each (Task.outer_body S unique candidates) l teams = Ok teams' →
  P teams → P teams'.
Proof.
  intros Hadd. revert teams.
  induction l as [|c l IH]; intros teams Hloop HP; simpl in Hloop.
  - by injection Hloop as <-.
  - destruct (Task.outer_body _ _ _ _ _) as [teams1|] eqn:Hbody; [|done].
    simpl in Hloop. apply (IH teams1); [done|].
    by eapply outer_body_teams.
Qed.
End completeness.

Lemma found_teams_nonempty S people teams :
  S ≠ [] → team_skills S people = list_to_set S →
  Task.found_teams S people = Ok teams → teams ≠ [].
Proof.
  intros HS Hcover. unfold Task.found_teams.
  rewrite <-team_skills_people_have_skills in Hcover.
  destruct (Task.skills_count _ _) as [d|]; [|done]. simpl.
  destruct (Task.people_have_skills S people) as [|c candidates] eqn:Hcands.
  { destruct S as [|s S]; [done|].
    assert (s ∈ team_skills (s :: S) []) as Hs.
    { rewrite Hcover. apply elem_of_list_to_set. left. }
    by apply elem_of_team_skills in Hs as (p & ?%elem_of_nil & _). }
  simpl. intros Hloop.
  destruct (Task.outer_body _ _ _ _ _) as [teams1|] eqn:Hbody; [|done].
  simpl in Hloop.
  eapply (outer_loop_teams _ _ _ (λ teams, teams ≠ []));
    [intros; apply add_team_nonempty|done|].
  eapply outer_body_stores; [done| |done]. left.
Qed.

(** X1: [make_teams] stores at least one team exactly when a skill is
    required and the people of the roster, taken together, have all the
    required skills. *)
Theorem make_teams_finds_a_team self people :
  ∃ self',
    Task.make_teams self people = Ok (self', people)
    ∧ (Task.teams self' ≠ []
       ↔ Task.skills self ≠ [] ∧ covers (Task.skills self) people).
Proof.
  destruct (make_teams_Ok self people) as (teams & Hf & [_ Hgood] & ->).
  eexists; split; [done|]. simpl. split.
  - intros Hne. split.
    + intros Hnil. apply Hne.
      unfold Task.found_teams in Hf.
      rewrite (people_have_skills_nil _ people) in Hf by (by left).
      simpl in Hf. by injection Hf as <-.
    + destruct (sort_by_price teams) as [|tm l] eqn:Hsort; [done|].
      assert (tm ∈ teams) as Htm.
      { rewrite <-(sort_by_price_perm teams), Hsort. left. }
      rewrite Forall_forall in Hgood.
      destruct (Hgood tm Htm) as (Hcov%covers_team_skills & Hin & _).
      apply covers_team_skills. apply (anti_symm (⊆)).
      * apply team_skills_subseteq.
      * rewrite <-Hcov. apply team_skills_mono. intros p Hp.
        by apply Hin, elem_of_people_have_skills in Hp as [? _].
  - intros [HS Hcov%covers_team_skills] Hnil.
    apply (found_teams_nonempty _ _ _ HS Hcov Hf).
    apply Permutation_nil_r. by rewrite <-Hnil, sort_by_price_perm.
Qed.

(** X2: every stored team has a member, and its members are people of the
    roster who have at least one of the required skills. *)
Theorem make_teams_members self people :
  ∃ self',
    Task.make_teams self people = Ok (self', people)
    ∧ Forall
        (λ tm, tm ≠ []
               ∧ ∀ p, p ∈ tm →
                      p ∈ people
                      ∧ ∃ s, s ∈ Person.skills p ∧ s ∈ Task.skills self)
        (Task.teams self').
Proof.
  destruct (make_teams_Ok self people) as (teams & Hf & [_ Hgood] & ->).
  eexists; split; [done|]. simpl. rewrite sort_by_price_perm.
  apply Forall_forall. intros tm Htm. rewrite Forall_forall in Hgood.
  destruct (Hgood tm Htm) as (Hcov%covers_team_skills & Hin & _). split.
  - intros ->. assert (Task.skills self = []) as Hnil.
    { destruct (Task.skills self) as [|s S]; [done|].
      assert (s ∈ team_skills (s :: S) []) as Hs.
      { rewrite Hcov. apply elem_of_list_to_set. left. }
      by apply elem_of_team_skills in Hs as (p & ?%elem_of_nil & _). }
    unfold Task.found_teams in Hf.
    rewrite (people_have_skills_nil _ people) in Hf by (by left).
    simpl in Hf. injection Hf as <-. by apply elem_of_nil in Htm.
  - intros p Hp. by apply elem_of_people_have_skills, Hin.
Qed.

Lemma people_have_skills_app S l1 l2 :
  Task.people_have_skills S (l1 ++ l2)
  = Task.people_have_skills S l1 ++ Task.people_have_skills S l2.
Proof. apply filter_app. Qed.

(** X3: a person with none of the required skills can be added to the roster,
    at any place, without changing the teams that are stored. *)
Theorem make_teams_ignores_unskilled self l1 q l2 :
  (∀ s, s ∈ Person.skills q → s ∉ Task.skills self) →
  ∃ self1 self2,
    Task.make_teams self (l1 ++ l2) = Ok (self1, l1 ++ l2)
    ∧ Task.make_teams self (l1 ++ q :: l2) = Ok (self2, l1 ++ q :: l2)
    ∧ Task.teams self1 = Task.teams self2.
Proof.
  intros Hq.
  destruct (make_teams_Ok self (l1 ++ l2)) as (teams1 & Hf1 & _ & ->).
  destruct (make_teams_Ok self (l1 ++ q :: l2)) as (teams2 & Hf2 & _ & ->).
  eexists _, _; split_and!; [done..|]. simpl.
  unfold Task.found_teams in Hf1, Hf2.
  rewrite people_have_skills_app in Hf1, Hf2.
  rewrite (people_have_skills_app _ [q] l2) in Hf2.
  rewrite (people_have_skills_nil _ [q]) in Hf2.
  - simpl in Hf2. rewrite Hf1 in Hf2. by injection Hf2 as <-.
  - right. intros p s ->%list_elem_of_singleton. apply Hq.
Qed.

Lemma make_teams_ignores_unskilled_witness :
  let Petya := Person.mk "Petya" 2500 ["C++"; "python"; "postgresql"] in
  let Mark := Person.mk "Mark" 1500 ["js"; "python"] in
  let Justin := Person.mk "Justin" 1600 ["marketing"; "brand"] in
  ∃ self1 self2,
    Task.make_teams (Task.mk "Three" ["C++"; "python"] []) ([Mark] ++ [Petya])
    = Ok (self1, [Mark] ++ [Petya])
    ∧ Task.make_teams (Task.mk "Three" ["C++"; "python"] [])
        ([Mark] ++ Justin :: [Petya])
      = Ok (self2, [Mark] ++ Justin :: [Petya])
    ∧ Task.teams self1 = Task.teams self2.
Proof.
  intros Petya Mark Justin.
  apply (make_teams_ignores_unskilled
           (Task.mk "Three" ["C++"; "python"] []) [Mark] Justin [Petya]).
  apply (proj1 (Forall_forall
                  (λ s, s ∉ Task.skills (Task.mk "Three" ["C++"; "python"] []))
                  (Person.skills Justin))).
  apply (bool_decide_unpack _). vm_compute. exact I.
Defined.

(** ** What [skills_count] holds *)

Lemma dict_lookup_set {V} (d : dict V) k v k' :
  dict_lookup (dict_set d k v) k'
  = if decide (k = k') then Some v else dict_lookup d k'.
Proof.
  induction d as [|[k0 v0] d IH]; simpl.
  - by destruct (decide (k = k')).
  - destruct (decide (k0 = k)) as [->|Hne]; simpl.
    + by destruct (decide (k = k')).
    + rewrite IH. destruct (decide (k0 = k')) as [->|]; [|done].
      by destruct (decide (k = k')).
Qed.

Lemma dict_set_NoDup {V} (d : dict V) k v :
  NoDup d.*1 → NoDup (dict_set d k v).*1.
Proof.
  induction d as [|[k0 v0] d IH]; simpl.
  - intros _. apply NoDup_singleton.
  - rewrite NoDup_cons. intros [Hk0 Hd].
    destruct (decide (k0 = k)) as [->|Hne]; simpl.
    + by apply NoDup_cons.
    + apply NoDup_cons. split; [|auto].
      rewrite dict_set_keys. naive_solver.
Qed.

Lemma dict_lookup_append {X} (d d' : dict (list X)) k x k' :
  dict_append d k x = Ok d' →
  dict_lookup d' k'
  = if decide (k = k') then (λ v, v ++ [x]) <$> dict_lookup d k'
    else dict_lookup d k'.
Proof.
  revert d'. induction d as [|[k0 v0] d IH]; intros d'; simpl; [done|].
  destruct (decide (k0 = k)) as [->|Hne].
  - intros [= <-]. simpl. by destruct (decide (k = k')).
  - destruct (dict_append d k x) as [d1|]; [|done]. simpl.
    intros [= <-]. simpl. rewrite (IH d1) by done.
    destruct (decide (k0 = k')) as [->|]; [|done].
    by destruct (decide (k = k')).
Qed.

Lemma dict_append_keys {X} (d d' : dict (list X)) k x :
  dict_append d k x = Ok d' → d'.*1 = d.*1.
Proof.
  revert d'. induction d as [|[k0 v0] d IH]; intros d'; simpl; [done|].
  destruct (decide (k0 = k)); [by intros [= <-]|].
  destruct (dict_append d k x) as [d2|]; [|done]. simpl.
  intros [= <-]. rewrite !fmap_cons. simpl. by rewrite (IH d2).
Qed.

Lemma dict_lookup_elem_of {V} (d : dict V) k v :
  NoDup d.*1 → (k, v) ∈ d ↔ dict_lookup d k = Some v.
Proof.
  induction d as [|[k0 v0] d IH]; simpl.
  - intros _. split; [by intros ?%elem_of_nil|done].
  - rewrite NoDup_cons. intros [Hk0 Hd]. rewrite elem_of_cons, (IH Hd).
    destruct (decide (k0 = k)) as [->|Hne].
    + split; [|naive_solver]. intros [[= ->]|Hin]; [done|].
      exfalso. apply Hk0. apply (IH Hd) in Hin.
      apply list_elem_of_fmap. by exists (k, v).
    + naive_solver.
Qed.

Section skills_count_value.
Context (S : list string).

(** What the loop over the required skills appends for person [p] under
    key [k]: [p], once for each time [k] is listed. *)
Lemma count_person_lookup p l d d' k :
  for_each
    (λ d skill,
       if decide (skill ∈ Person.skills p) then dict_append d skill p
       else Ok d) l d = Ok d' →
  d'.*1 = d.*1
  ∧ dict_lookup d' k
    = (λ v, v ++ if decide (k ∈ Person.skills p)
                 then replicate (length (filter (k =.) l)) p else [])
      <$> dict_lookup d k.
Proof.
  revert d. induction l as [|s l IH]; intros d; simpl.
  - intros [= <-]. split; [done|]. destruct (dict_lookup d k); simpl; [|done].
    f_equal. destruct (decide (k ∈ Person.skills p)); simpl;
      by rewrite (right_id_L [] (++)).
  - destruct (decide (s ∈ Person.skills p)) as [Hs|Hs].
    + destruct (dict_append d s p) as [d1|] eqn:Happ; [|done]. simpl.
      intros Hloop. destruct (IH d1 Hloop) as [Hkeys ->].
      pose proof (dict_append_keys _ _ _ _ Happ) as Hkeys1.
      split; [congruence|].
      rewrite (dict_lookup_append _ _ _ _ _ Happ), filter_cons.
      destruct (decide (s = k)) as [->|Hne].
      * destruct (decide (k = k)); [|done].
        destruct (decide (k ∈ Person.skills p)); [|done].
        destruct (dict_lookup d k); simpl; [|done].
        by rewrite <-(assoc_L (++)).
      * destruct (decide (k = s)); [by subst|done].
    + simpl. intros Hloop. destruct (IH d Hloop) as [Hkeys ->].
      split; [done|]. rewrite filter_cons.
      destruct (decide (k = s)) as [->|]; [|done].
      by destruct (decide (s ∈ Person.skills p)).
Qed.

Lemma count_lookup candidates d d' k :
  for_each
    (λ d p,
       for_each
         (λ d skill,
            if decide (skill ∈ Person.skills p) then dict_append d skill p
            else Ok d) S d) candidates d = Ok d' →
  d'.*1 = d.*1
  ∧ dict_lookup d' k
    = (λ v, v ++ (candidates ≫= λ p,
                    if decide (k ∈ Person.skills p)
                    then replicate (length (filter (k =.) S)) p else []))
      <$> dict_lookup d k.
Proof.
  revert d. induction candidates as [|p candidates IH]; intros d; simpl.
  - intros [= <-]. split; [done|]. destruct (dict_lookup d k); simpl; [|done].
    by rewrite (right_id_L [] (++)).
  - destruct (for_each _ S d) as [d1|] eqn:Hp; [|done]. simpl.
    intros Hloop. destruct (IH d1 Hloop) as [Hkeys ->].
    destruct (count_person_lookup p S d d1 k Hp) as [Hkeys1 ->].
    split; [congruence|].
    destruct (dict_lookup d k); simpl; [|done].
    by rewrite <-(assoc_L (++)).
Qed.

Lemma count_init_lookup k :
  NoDup (foldl (λ (d : dict (list Person.t)) s, dict_set d s []) [] S).*1
  ∧ dict_lookup (foldl (λ (d : dict (list Person.t)) s, dict_set d s []) [] S) k
    = if decide (k ∈ S) then Some [] else None.
Proof.
  cut (∀ (l : list string) (d : dict (list Person.t)),
         NoDup d.*1 →
         NoDup (foldl (λ d s, dict_set d s []) d l).*1
         ∧ dict_lookup (foldl (λ d s, dict_set d s []) d l) k
           = if decide (k ∈ l) then Some [] else dict_lookup d k).
  { intros H. apply (H S []). constructor. }
  induction l as [|s l IH]; intros d Hd; simpl.
  - split; [done|]. destruct (decide (k ∈ [])) as [?%elem_of_nil|]; done.
  - destruct (IH (dict_set d s []) (dict_set_NoDup d s [] Hd)) as [Hnd ->].
    split; [done|]. rewrite dict_lookup_set.
    destruct (decide (k ∈ l)) as [Hl|Hl].
    + destruct (decide (k ∈ s :: l)) as [|Hn]; [done|].
      exfalso. apply Hn. by right.
    + destruct (decide (s = k)) as [->|Hne].
      * destruct (decide (k ∈ k :: l)) as [|Hn]; [done|].
        exfalso. apply Hn. left.
      * destruct (decide (k ∈ s :: l)) as [[->|?]%elem_of_cons|]; done.
Qed.
End skills_count_value.

(** Listing each holder of a skill [n] times gives a one-element list only
    for [n = 1] and a single holder. *)
Lemma bind_replicate_singleton {X} (P : X → Prop) `{!∀ x, Decision (P x)}
  (n : nat) (l : list X) (p : X) :
  (l ≫= λ x, if decide (P x) then replicate n x else []) = [p]
  ↔ n = 1%nat ∧ filter P l = [p].
Proof.
  assert (length (l ≫= λ x, if decide (P x) then replicate n x else [])
          = (n * length (filter P l))%nat) as Hlen.
  { induction l as [|x l IH]; [simpl; lia|].
    rewrite bind_cons, length_app, IH, filter_cons.
    destruct (decide (P x)); simpl; [rewrite length_replicate|]; lia. }
  assert (n = 1%nat →
          (l ≫= λ x, if decide (P x) then replicate n x else [])
          = filter P l) as Hone.
  { clear Hlen. intros ->. induction l as [|x l IH]; [done|].
    rewrite bind_cons, IH, filter_cons. by destruct (decide (P x)). }
  split.
  - intros Heq. rewrite Heq in Hlen. simpl in Hlen.
    symmetry in Hlen. apply Nat.eq_mul_1 in Hlen as [Hn _]. split; [done|].
    by rewrite <-(Hone Hn).
  - intros [Hn <-]. auto.
Qed.

Lemma elem_of_people_with_unique_skills S candidates d p :
  Task.skills_count S candidates = Ok d →
  p ∈ Task.people_with_unique_skills d
  ↔ ∃ k, k ∈ S ∧ length (filter (k =.) S) = 1%nat
         ∧ filter (λ q, k ∈ Person.skills q) candidates = [p].
Proof.
  intros Hd. unfold Task.skills_count in Hd.
  assert (NoDup d.*1 ∧ ∀ k, dict_lookup d k
            = if decide (k ∈ S)
              then Some (candidates ≫= λ q,
                           if decide (k ∈ Person.skills q)
                           then replicate (length (filter (k =.) S)) q else [])
              else None) as [Hnd Hlook].
  { split.
    - destruct (count_lookup S candidates _ d "" Hd) as [-> _].
      apply (count_init_lookup S "").
    - intros k. destruct (count_lookup S candidates _ d k Hd) as [_ ->].
      destruct (count_init_lookup S k) as [_ ->].
      by destruct (decide (k ∈ S)). }
  unfold Task.people_with_unique_skills. rewrite list_elem_of_omap. split.
  - intros ([k v] & Hin & Hsome). simpl in Hsome.
    destruct (decide (length v = 1%nat)) as [Hlen|]; [|done].
    destruct v as [|q [|??]]; simplify_eq/=.
    apply (dict_lookup_elem_of _ _ _ Hnd) in Hin. rewrite Hlook in Hin.
    destruct (decide (k ∈ S)); [|done]. injection Hin as Hin.
    apply (bind_replicate_singleton (λ q, k ∈ Person.skills q)) in Hin
      as [? ?].
    by exists k.
  - intros (k & Hk & Hone & Hfilter).
    exists (k, [p]). split; [|done].
    apply (dict_lookup_elem_of _ _ _ Hnd). rewrite Hlook.
    destruct (decide (k ∈ S)); [|done]. f_equal.
    by apply bind_replicate_singleton.
Qed.

(** X4: a person is in [people_with_unique_skills] exactly when, for some
    required skill that the task lists once, this person is the only
    candidate who has it. *)
Theorem people_with_unique_skills_spec S candidates p :
  ∃ d,
    Task.skills_count S candidates = Ok d
    ∧ (p ∈ Task.people_with_unique_skills d
       ↔ ∃ k, k ∈ S ∧ length (filter (k =.) S) = 1%nat
              ∧ filter (λ q, k ∈ Person.skills q) candidates = [p]).
Proof.
  destruct (skills_count_Ok S candidates) as (d & Hd & _).
  exists d. split; [done|]. by apply elem_of_people_with_unique_skills.
Qed.

(** ** Pruning leaves no redundant member *)

Lemma elem_of_delete_lookup {X} (l : list X) i q :
  q ∈ delete i l ↔ ∃ j, j ≠ i ∧ l !! j = Some q.
Proof.
  rewrite list_elem_of_lookup. split.
  - intros [j Hj]. destruct (decide (j < i)%nat).
    + exists j. split; [lia|]. by rewrite list_lookup_delete_lt in Hj.
    + exists (Datatypes.S j). split; [lia|].
      by rewrite list_lookup_delete_ge in Hj by lia.
  - intros (j & Hne & Hj). destruct (decide (j < i)%nat).
    + exists j. by rewrite list_lookup_delete_lt.
    + exists (pred j). rewrite list_lookup_delete_ge by lia.
      by replace (Datatypes.S (pred j)) with j by lia.
Qed.

Section prune_facts.
Context (S : list string).

Lemma elem_of_skills_except tm i s :
  s ∈ Task.skills_except S tm i
  ↔ ∃ j q, j ≠ i ∧ tm !! j = Some q ∧ s ∈ relevant S q.
Proof.
  unfold Task.skills_except.
  cut (∀ js (acc : gset string),
         s ∈ foldl
               (λ ts j,
                  if decide (i = j) then ts
                  else match tm !! j with
                       | Some q => ts ∪ relevant S q
                       | None => ts
                       end) acc js
         ↔ s ∈ acc ∨ ∃ j q, j ∈ js ∧ j ≠ i ∧ tm !! j = Some q
                            ∧ s ∈ relevant S q).
  { intros ->. split.
    - intros [?%not_elem_of_empty|(j & q & _ & ?)]; [done|eauto].
    - intros (j & q & Hne & Hj & Hs). right. exists j, q.
      split; [|done]. apply elem_of_seq.
      apply lookup_lt_Some in Hj. lia. }
  induction js as [|j js IH]; intros acc; simpl.
  - split; [by left|]. by intros [?|(j & q & ?%elem_of_nil & _)].
  - rewrite IH. split.
    + intros [Hacc|(j' & q & Hj' & ?)].
      * destruct (decide (i = j)); [by left|].
        destruct (tm !! j) as [q|] eqn:Hq; [|by left].
        apply elem_of_union in Hacc as [?|?]; [by left|].
        right. exists j, q. split_and!; [left|done..].
      * right. exists j', q. split; [by right|done].
    + intros [Hacc|(j' & q & [->|Hj']%elem_of_cons & Hne & Hq & Hs)].
      * left. destruct (decide (i = j)); [done|].
        destruct (tm !! j); [|done]. by apply elem_of_union_l.
      * left. destruct (decide (i = j)); [done|].
        rewrite Hq. by apply elem_of_union_r.
      * right. by exists j', q.
Qed.

(** The skills of the team without member [i] are those of what is left
    when one takes that member out. *)
Lemma skills_except_rest tm i x rest :
  tm !! i = Some x → tm ≡ₚ x :: rest →
  Task.skills_except S tm i = team_skills S rest.
Proof.
  intros Hi Hperm.
  assert (rest ≡ₚ delete i tm) as Hrest.
  { apply (Permutation_cons_inv (a:=x)).
    by rewrite <-Hperm, <-delete_Permutation. }
  rewrite (team_skills_perm _ _ _ Hrest).
  apply set_eq. intros s.
  rewrite elem_of_skills_except, elem_of_team_skills.
  setoid_rewrite elem_of_delete_lookup. naive_solver.
Qed.

End prune_facts.

Lemma omap_lookup_filter {X} `{EqDecision X} (Q : nat → Prop)
  `{!∀ i, Decision (Q i)} (x : X) (pre l : list X) :
  (∀ i, (pre ++ l) !! i = Some x → Q i) →
  filter (x =.)
    (omap (λ i, if decide (Q i) then (pre ++ l) !! i else None)
       (seq (length pre) (length l)))
  = filter (x =.) l.
Proof.
  revert pre. induction l as [|y l IH]; intros pre HQ; [done|].
  specialize (IH (pre ++ [y])).
  rewrite <-(assoc_L (++)), length_app, Nat.add_1_r in IH. simpl in IH.
  csimpl. rewrite list_lookup_middle by done.
  destruct (decide (Q (length pre))) as [|HnQ]; csimpl.
  - by rewrite !filter_cons, IH.
  - rewrite IH by done. rewrite filter_cons.
    destruct (decide (x = y)) as [->|]; [|done].
    exfalso. apply HnQ, HQ. by apply list_lookup_middle.
Qed.

Section prune_needed.
Context (S : list string) (ts : gset string).

Lemma elem_of_redundant tm x :
  x ∈ Task.redundant S tm ts
  ↔ ∃ i, tm !! i = Some x ∧ Task.skills_except S tm i = ts.
Proof.
  unfold Task.redundant. rewrite list_elem_of_omap. split.
  - intros (i & _ & Hi). destruct (decide _); [|done]. eauto.
  - intros (i & Hi & Hts). exists i. split.
    + apply elem_of_seq. apply lookup_lt_Some in Hi. lia.
    + by destruct (decide (Task.skills_except S tm i = ts)).
Qed.

(** When a person is in the list [removed], so is each occurrence of the
    person in the team. *)
Lemma redundant_count tm x :
  x ∈ Task.redundant S tm ts →
  filter (x =.) (Task.redundant S tm ts) = filter (x =.) tm.
Proof.
  intros (i0 & Hi0 & Hts0)%elem_of_redundant.
  apply (omap_lookup_filter (λ i, Task.skills_except S tm i = ts) x [] tm).
  intros i Hi. simpl in Hi.
  rewrite (skills_except_rest S tm i x (delete i0 tm)); [|done|].
  - by rewrite <-(skills_except_rest S tm i0 x (delete i0 tm))
      by auto using delete_Permutation.
  - by apply delete_Permutation.
Qed.

Lemma needed_mono tm tm1 x :
  tm1 ⊆+ tm → team_skills S tm = ts → needed S ts tm x → needed S ts tm1 x.
Proof.
  intros Hsub Hts Hneeded rest Hperm Hrest.
  apply submseteq_Permutation in Hsub as [k Hk].
  apply (Hneeded (rest ++ k)).
  - by rewrite Hk, Hperm.
  - apply (anti_symm (⊆)).
    + rewrite <-Hts. apply team_skills_mono. intros p Hp.
      rewrite Hk, Hperm. by right.
    + rewrite <-Hrest. apply team_skills_mono. intros p Hp.
      apply elem_of_app. by left.
Qed.

Lemma prune_needed removed tm :
  removed ⊆+ tm → team_skills S tm = ts →
  (∀ x, x ∈ tm →
        needed S ts tm x
        ∨ (length (filter (x =.) tm) ≤ length (filter (x =.) removed))%nat) →
  ∃ tm', Task.prune S removed tm ts = Ok tm' ∧ tm' ⊆+ tm
         ∧ team_skills S tm' = ts ∧ ∀ x, x ∈ tm' → needed S ts tm' x.
Proof.
  unfold Task.prune. revert tm.
  induction removed as [|r removed IH]; intros tm Hsub Hts Hinv; simpl.
  - exists tm. split_and!; [done..|]. intros x Hx.
    destruct (Hinv x Hx) as [?|Hlen]; [done|]. simpl in Hlen.
    assert (x ∈ filter (x =.) tm) as Hin by by apply list_elem_of_filter.
    destruct (filter (x =.) tm); [by apply elem_of_nil in Hin|].
    simpl in Hlen. lia.
  - apply submseteq_cons_l in Hsub as (k & Hk & Hsub).
    destruct (list_remove_first_Ok r tm) as (tm1 & -> & Htm1).
    { rewrite Hk. left. }
    simpl. assert (removed ⊆+ tm1) as Hsub1.
    { rewrite Hk in Htm1. apply Permutation_cons_inv in Htm1.
      by rewrite <-Htm1. }
    assert (tm1 ++ [r] ≡ₚ tm) as Hback.
    { by rewrite Htm1, Permutation_app_comm. }
    destruct (decide (team_skills S tm1 ≠ ts)) as [Hne|Heq]; simpl.
    + destruct (IH (tm1 ++ [r])) as (tm' & -> & Hsub' & ? & Hall).
      * by apply submseteq_inserts_r.
      * by rewrite (team_skills_perm _ _ _ Hback).
      * intros x Hx. destruct (decide (x = r)) as [->|Hxr].
        { left. intros rest Hrest Hcov. apply Hne.
          rewrite <-Hcov. apply team_skills_perm.
          apply (Permutation_cons_inv (a:=r)).
          by rewrite <-Hrest, Hback. }
        rewrite Hback in Hx. destruct (Hinv x Hx) as [Hn|Hlen].
        { left. intros rest Hrest. apply Hn. by rewrite <-Hback. }
        right. rewrite Hback. rewrite filter_cons in Hlen.
        by destruct (decide (x = r)).
      * exists tm'. split_and!; [done| |done..]. by rewrite <-Hback.
    + assert (team_skills S tm1 = ts) as Hts1.
      { by destruct (decide (team_skills S tm1 = ts)); [|exfalso; auto]. }
      assert (tm1 ⊆+ tm) as Hsub0.
      { rewrite Htm1. by apply submseteq_cons. }
      destruct (IH tm1) as (tm' & -> & Hsub' & ? & Hall); [done..| |].
      * intros x Hx. assert (x ∈ tm) as Hx' by (rewrite Htm1; by right).
        destruct (Hinv x Hx') as [Hn|Hlen].
        { left. by apply (needed_mono tm). }
        right. rewrite Htm1, !filter_cons in Hlen.
        destruct (decide (x = r)); simpl in Hlen; lia.
      * exists tm'. split_and!; [done| |done..]. by etrans.
Qed.
End prune_needed.

(** X5: the pruning of a team never raises; it takes people out and adds
    nobody, keeps the skills of the team, and leaves no member that the rest
    could do without. *)
Theorem prune_leaves_no_redundant_member S tm :
  ∃ tm',
    Task.prune S (Task.redundant S tm (team_skills S tm)) tm (team_skills S tm)
    = Ok tm'
    ∧ tm' ⊆+ tm
    ∧ team_skills S tm' = team_skills S tm
    ∧ ∀ x rest, tm' ≡ₚ x :: rest → team_skills S rest ≠ team_skills S tm.
Proof.
  destruct (prune_needed S (team_skills S tm)
              (Task.redundant S tm (team_skills S tm)) tm)
    as (tm' & Hprune & Hsub & Hts & Hall).
  - apply sublist_submseteq, redundant_sublist.
  - done.
  - intros x Hx.
    destruct (decide (x ∈ Task.redundant S tm (team_skills S tm)))
      as [Hin|Hnin].
    + right. by rewrite (redundant_count _ _ _ _ Hin).
    + left. intros rest Hrest Hcov. apply Hnin.
      apply list_elem_of_lookup_1 in Hx as [i Hi].
      apply elem_of_redundant. exists i. split; [done|].
      by rewrite (skills_except_rest S tm i x rest).
  - exists tm'. split_and!; [done..|].
    intros x rest Hrest. apply (Hall x); [|done]. rewrite Hrest. left.
Qed.

(** ** The order on persons *)

Lemma string_compare_refl s : String.compare s s = Eq.
Proof.
  pose proof (String.compare_antisym s s) as H.
  by destruct (String.compare s s).
Qed.

(** X6: [>] on persons is [<] with the sides exchanged, and two persons are
    in neither order exactly when they have the same name: equal persons are
    so, and so are persons who differ in salary or skills only. *)
Theorem person_order a b :
  Person.gt a b = Person.lt b a
  ∧ (Person.lt a b = false ∧ Person.gt a b = false
     ↔ Person.name a = Person.name b)
  ∧ (a = b → Person.lt a b = false ∧ Person.gt a b = false).
Proof.
  unfold Person.gt, Person.lt, String.ltb.
  rewrite (String.compare_antisym (Person.name a) (Person.name b)).
  split_and!.
  - by destruct (String.compare (Person.name b) (Person.name a)).
  - split.
    + destruct (String.compare (Person.name b) (Person.name a)) eqn:Hc;
        simpl; intros [? ?]; try done.
      symmetry. by apply String.compare_eq_iff.
    + intros ->. by rewrite string_compare_refl.
  - intros ->. by rewrite string_compare_refl.
Qed.


(** ** When the batch constructors succeed *)




(** ** A person who has all the skills *)

Lemma for_each_app_Ok {A St} (body : St → A → result St) l1 l2 st st' :
  for_each body (l1 ++ l2) st = Ok st' →
  ∃ st1, for_each body l1 st = Ok st1 ∧ for_each body l2 st1 = Ok st'.
Proof.
  revert st. induction l1 as [|x l1 IH]; intros st; simpl; [by eauto|].
  destruct (body st x) as [st0|]; [|done]. simpl. apply IH.
Qed.

Lemma elem_of_add_team tm tm' teams :
  tm ∈ Task.add_team tm' teams ↔ tm = tm' ∨ tm ∈ teams.
Proof.
  unfold Task.add_team. destruct (decide (tm' ∈ teams)).
  - naive_solver.
  - rewrite elem_of_app, list_elem_of_singleton. naive_solver.
Qed.

(** X10: a person of the roster who has every required skill is stored as a
    team of their own: a stored team has this person, maybe more than once,
    and nobody else. *)
Theorem make_teams_one_person_team self people p :
  Task.skills self ≠ [] → p ∈ people →
  (∀ s, s ∈ Task.skills self → s ∈ Person.skills p) →
  ∃ self',
    Task.make_teams self people = Ok (self', people)
    ∧ Exists (λ tm, tm ≠ [] ∧ Forall (p =.) tm) (Task.teams self').
Proof.
  intros HS Hp Hall.
  destruct (make_teams_Ok self people) as (teams & Hf & _ & ->).
  eexists; split; [done|]. simpl. rewrite sort_by_price_perm.
  set (S := Task.skills self) in *.
  assert (relevant S p = list_to_set S) as Hrel.
  { apply set_eq. intros s. rewrite elem_of_relevant, elem_of_list_to_set.
    naive_solver. }
  assert (p ∈ Task.people_have_skills S people) as Hcand.
  { apply elem_of_people_have_skills. split; [done|].
    destruct S as [|s S']; [done|]. exists s. split; [apply Hall|]; left. }
  unfold Task.found_teams in Hf.
  destruct (Task.skills_count _ _) as [d|] eqn:Hd; [|done]. simpl in Hf.
  set (unique := Task.people_with_unique_skills d) in *.
  assert (Forall (p =.) unique) as Hunique.
  { apply Forall_forall. intros u Hu.
    apply (elem_of_people_with_unique_skills _ _ _ _ Hd) in Hu
      as (k & Hk & _ & Hfilter).
    assert (p ∈ filter (λ q, k ∈ Person.skills q)
                  (Task.people_have_skills S people)) as Hin.
    { apply list_elem_of_filter. split; [by apply Hall|done]. }
    rewrite Hfilter in Hin. by apply list_elem_of_singleton in Hin. }
  set (seed := (Task.init S unique p).1).
  assert (Forall (p =.) seed ∧ team_skills S seed = list_to_set S)
    as [Hseed Hcov].
  { split.
    - unfold seed, Task.init. simpl.
      destruct (decide (p ∈ unique)); [done|].
      apply Forall_app. split; [done|]. by constructor.
    - apply (anti_symm (⊆)); [apply team_skills_subseteq|].
      rewrite <-Hrel. intros s Hs. apply elem_of_team_skills.
      exists p. split; [apply init_member|done]. }
  apply Exists_exists. exists (sort_team seed). split_and!.
  - apply list_elem_of_split in Hcand as (l1 & l2 & Hsplit).
    rewrite Hsplit in Hf at 2.
    apply for_each_app_Ok in Hf as (teams1 & _ & Hf). simpl in Hf.
    destruct (Task.outer_body _ _ _ _ _) as [teams2|] eqn:Hbody; [|done].
    simpl in Hf.
    apply (outer_loop_teams _ _ _ (λ teams, sort_team seed ∈ teams)
             _ _ _ (λ tm teams H, proj2 (elem_of_add_team _ tm teams)
                                    (or_intror H)) Hf).
    unfold Task.outer_body in Hbody. fold seed in Hbody.
    change (Task.init S unique p) with (seed, team_skills S seed) in Hbody.
    simpl in Hbody.
    destruct (decide (team_skills S seed = list_to_set S)); [|done].
    injection Hbody as <-. apply elem_of_add_team. by left.
  - intros Hnil. assert (seed ≡ₚ []) as Hperm.
    { by rewrite <-(sort_team_perm seed), Hnil. }
    apply Permutation_nil_r in Hperm.
    pose proof (init_member S unique p) as Hmem. fold seed in Hmem.
    rewrite Hperm in Hmem. by apply elem_of_nil in Hmem.
  - by rewrite sort_team_perm.
Qed.

Lemma make_teams_one_person_team_witness :
  let Petya := Person.mk "Petya" 2500 ["C++"; "python"; "postgresql"] in
  let Mark := Person.mk "Mark" 1500 ["js"; "python"] in
  ∃ self',
    Task.make_teams (Task.mk "Three" ["C++"; "python"] []) [Mark; Petya]
    = Ok (self', [Mark; Petya])
    ∧ Exists (λ tm, tm ≠ [] ∧ Forall (Petya =.) tm) (Task.teams self').
Proof.
  intros Petya Mark.
  apply (make_teams_one_person_team
           (Task.mk "Three" ["C++"; "python"] []) [Mark; Petya] Petya).
  - discriminate.
  - apply (bool_decide_unpack _). vm_compute. exact I.
  - apply (proj1 (Forall_forall (λ s, s ∈ Person.skills Petya)
                    ["C++"; "python"])).
    apply (bool_decide_unpack _). vm_compute. exact I.
Defined.

(** ** The price of a team *)

(** X11: when the salaries are integers, the price of a team is the same in
    whatever order its members are, so sorting the team by name does not
    change it, and the price of two teams put together is the sum of their
    prices. *)
Theorem price_order_independent tm tm' :
  (tm ≡ₚ tm' → price tm = price tm')
  ∧ price (sort_team tm) = price tm
  ∧ price (tm ++ tm') = price tm + price tm'.
Proof.
  assert (∀ tm1 tm2, tm1 ≡ₚ tm2 → price tm1 = price tm2) as Hperm.
  { intros tm1 tm2 H. rewrite !price_total_salary.
    induction H as [|x l1 l2 _ IH|x y l|l1 l2 l3 _ IH1 _ IH2]; simpl; lia. }
  split_and!.
  - apply Hperm.
  - apply Hperm, sort_team_perm.
  - rewrite !price_total_salary.
    induction tm as [|p tm IH]; simpl; lia.
Qed.

(** * The run on the store *)

(** ** The store *)

Lemma bind_Ok {A B} (m : result A) (k : A → result B) b :
  (x ← m; k x) = Ok b → ∃ a, m = Ok a ∧ k a = Ok b.
Proof. destruct m; simpl; [eauto | discriminate]. Qed.

Tactic Notation "inv_bind" hyp(H) "as" simple_intropattern(x) ident(E) :=
  apply bind_Ok in H as (x & E & H).
Tactic Notation "inv_bind" hyp(H) :=
  let x := fresh "x" in
  let E := fresh "E" in
  apply bind_Ok in H as (x & E & H).

(** A loop that returns has kept every invariant of its body. *)
Lemma for_each_Ok_inv {A St} (I : St → Prop) (body : St → A → result St)
  l st st' :
  (∀ st x st', x ∈ l → I st → body st x = Ok st' → I st') →
  I st → for_each body l st = Ok st' → I st'.
Proof.
  revert st. induction l as [|x l IH]; intros st Hbody Hst Hrun; simpl in *.
  - congruence.
  - inv_bind Hrun. eapply IH; [| |done].
    + intros ????. apply Hbody. by right.
    + eapply Hbody; [left|done..].
Qed.

Lemma for_each_break_Ok_inv {A St} (I J : St → Prop)
  (body : St → A → result (St * flow)) l st st' :
  (∀ st, I st → J st) →
  (∀ st x r, x ∈ l → I st → body st x = Ok r →
             if r.2 is Continue then I r.1 else J r.1) →
  I st → for_each_break body l st = Ok st' → J st'.
Proof.
  intros HIJ. revert st.
  induction l as [|x l IH]; intros st Hbody Hst Hrun; simpl in *.
  - apply HIJ. congruence.
  - inv_bind Hrun. pose proof (Hbody st x x0 ltac:(left) Hst E) as Hx.
    destruct (x0.2).
    + eapply IH; [|done..]. intros ????. apply Hbody. by right.
    + congruence.
Qed.

Lemma only_refl a h : Imp.only a h h.
Proof. by split. Qed.

Lemma only_trans a h1 h2 h3 :
  Imp.only a h1 h2 → Imp.only a h2 h3 → Imp.only a h1 h3.
Proof.
  intros [Hn1 Hc1] [Hn2 Hc2]. split; [congruence|].
  intros b Hb. by rewrite Hc2, Hc1.
Qed.

Lemma only_store a l h : Imp.only a h (Imp.store a l h).
Proof. split; [done|]. intros b Hb. simpl. by rewrite fn_lookup_insert_ne. Qed.

Lemma cell_store a l h : Imp.cell (Imp.store a l h) a = l.
Proof. simpl. by rewrite fn_lookup_insert. Qed.

Lemma cell_store_ne a b l h : a ≠ b → Imp.cell (Imp.store a l h) b = Imp.cell h b.
Proof. intros. simpl. by rewrite fn_lookup_insert_ne. Qed.

Lemma fresh_alloc l h : Imp.fresh (Imp.alloc l h).1 h (Imp.alloc l h).2.
Proof.
  split_and!; [done..|]. intros b Hb. simpl in *. by rewrite fn_lookup_insert_ne.
Qed.

Lemma cell_alloc l h : Imp.cell (Imp.alloc l h).2 (Imp.next h) = l.
Proof. simpl. by rewrite fn_lookup_insert. Qed.

Lemma fresh_only a h1 h2 h3 :
  Imp.fresh a h1 h2 → Imp.only a h2 h3 → Imp.fresh a h1 h3.
Proof.
  intros (-> & Hn1 & Hc1) [Hn2 Hc2]. split_and!; [done|congruence|].
  intros b Hb. by rewrite Hc2, Hc1.
Qed.

Lemma ext_refl n h : Imp.ext n h h.
Proof. by split. Qed.

Lemma ext_trans n h1 h2 h3 :
  Imp.ext n h1 h2 → Imp.ext n h2 h3 → Imp.ext n h1 h3.
Proof.
  intros [Hn1 Hc1] [Hn2 Hc2]. split; [lia|].
  intros a Ha. by rewrite Hc2, Hc1.
Qed.

Lemma ext_mono m n h h' : (m ≤ n)%nat → Imp.ext n h h' → Imp.ext m h h'.
Proof. intros Hmn [Hn Hc]. split; [done|]. intros a Ha. apply Hc. lia. Qed.

Lemma only_ext n a h h' : (n ≤ a)%nat → Imp.only a h h' → Imp.ext n h h'.
Proof. intros Hna [Hn Hc]. split; [lia|]. intros b Hb. apply Hc. lia. Qed.

Lemma fresh_ext n a h h' :
  (n ≤ Imp.next h)%nat → Imp.fresh a h h' → Imp.ext n h h'.
Proof.
  intros Hna (-> & Hn & Hc). split; [lia|]. intros b Hb. apply Hc. lia.
Qed.

Section frame.
Context (order : list string → list string) (S : option (list string)).

Lemma redundant_fresh t ts h r h' :
  Imp.redundant order S t ts h = Ok (r, h') → Imp.fresh r h h'.
Proof.
  unfold Imp.redundant. intros H. inv_bind H. injection H as <- <-.
  revert E. apply for_each_Ok_inv.
  - intros h1 i h2 _ Hh1 Hbody. inv_bind Hbody.
    destruct (Imp.set_eq _ _); [|congruence].
    injection Hbody as <-. destruct (_ !! i); [|done].
    eapply fresh_only; [done|]. apply only_store.
  - apply fresh_alloc.
Qed.

Lemma prune_only removed t ts h h' :
  Imp.prune order S removed t ts h = Ok h' → Imp.only t h h'.
Proof.
  unfold Imp.prune. apply for_each_Ok_inv; [|apply only_refl].
  intros h1 r h2 _ Hh1 Hbody. do 2 inv_bind Hbody.
  eapply only_trans; [done|].
  destruct (Imp.set_eq _ _); injection Hbody as <-.
  - apply only_store.
  - eapply only_trans; apply only_store.
Qed.

Lemma sort_team_only t h h' :
  Imp.sort_team t h = Ok h' → Imp.only t h h'.
Proof.
  unfold Imp.sort_team. intros H. inv_bind H. injection H as <-.
  apply only_store.
Qed.

Lemma init_fresh unique curr h t ts h' :
  Imp.init order S unique curr h = Ok (t, ts, h') → Imp.fresh t h h'.
Proof.
  unfold Imp.init. intros H. inv_bind H. injection H as <- _ <-.
  destruct (decide _); [apply fresh_alloc|].
  eapply fresh_only; [apply fresh_alloc|apply only_store].
Qed.

(** One round of the inner loop writes to the team it works on and to new
    objects only, and the team it goes on with is that one or a new one. *)
Lemma inner_body_ext unique curr t ts teams h other t' ts' teams' h' fl :
  Imp.inner_body order S unique curr (t, ts, teams, h) other
  = Ok ((t', ts', teams', h'), fl) →
  (t < Imp.next h)%nat →
  Imp.ext t h h' ∧ (t ≤ t')%nat ∧ (t' < Imp.next h')%nat.
Proof.
  unfold Imp.inner_body. intros H Ht.
  destruct (decide _).
  { injection H as <- _ _ <- _. split_and!; [apply ext_refl|lia..]. }
  inv_bind H as os Eos. inv_bind H as all Eall. destruct (Imp.set_eq os all).
  { destruct (decide _); injection H as <- _ _ <- _; simpl;
      (split_and!; [|lia..]); split; simpl; try lia;
      intros a Ha; rewrite !fn_lookup_insert_ne by lia; done. }
  destruct (if Imp.set_issubset os ts then _ else _) as [ts1 h1] eqn:E1.
  assert (Imp.only t h h1) as Hh1.
  { destruct (Imp.set_issubset _ _); injection E1 as <- <-;
      [apply only_refl|apply only_store]. }
  inv_bind H as all' Eall'. destruct (Imp.set_eq ts1 all').
  - inv_bind H as [r h2] Er. inv_bind H as h3 Ep. inv_bind H as h4 Es.
    inv_bind H as [[t2 ts2] h5] Ei. injection H as <- _ _ <- _.
    simpl in *.
    apply redundant_fresh in Er. apply prune_only in Ep.
    apply sort_team_only in Es. apply init_fresh in Ei.
    destruct Hh1 as [Hn1 Hc1], Er as (-> & Hn2 & Hc2), Ep as [Hn3 Hc3],
      Es as [Hn4 Hc4], Ei as (-> & Hn5 & Hc5).
    split_and!; [split|..]; try lia.
    intros a Ha. rewrite Hc5, Hc4, Hc3, Hc2, Hc1 by lia. done.
  - injection H as <- _ _ <- _. split_and!; [|lia|destruct Hh1; lia].
    by apply (only_ext _ t).
Qed.

Lemma outer_body_ext unique candidates teams h curr teams' h' :
  Imp.outer_body order S unique candidates (teams, h) curr = Ok (teams', h') →
  Imp.ext (Imp.next h) h h'.
Proof.
  unfold Imp.outer_body. simpl. intros H. inv_bind H as [[t ts] h1] Ei.
  inv_bind H as all Eall. simpl in *. apply init_fresh in Ei as Hf.
  pose proof Hf as (-> & Hn1 & Hc1).
  eapply ext_trans; [by eapply fresh_ext|].
  destruct (Imp.set_eq _ _).
  - inv_bind H as h2 Es. injection H as _ <-. apply sort_team_only in Es.
    by apply (only_ext _ (Imp.next h)).
  - inv_bind H as st Est. injection H as _ <-. revert Est.
    apply (for_each_break_Ok_inv
      (λ st, Imp.ext (Imp.next h) h1 st.2
             ∧ (Imp.next h ≤ st.1.1.1)%nat ∧ (st.1.1.1 < Imp.next st.2)%nat)
      (λ st, Imp.ext (Imp.next h) h1 st.2)).
    + by intros ? (? & _).
    + intros [[[t ts1] teams1] h2] other [[[[t' ts'] teams2] h3] fl] _.
      simpl. intros (Hext & Hle & Hlt) Hbody.
      apply inner_body_ext in Hbody as (Hext' & ? & ?); [|done].
      assert (Imp.ext (Imp.next h) h1 h3).
      { eapply ext_trans; [done|]. by eapply ext_mono. }
      destruct fl; [split_and!|]; (done || lia).
    + simpl. split_and!; [apply ext_refl|lia..].
Qed.

Lemma count_init_ext skills h :
  let dh := Imp.count_init skills h in
  Imp.ext (Imp.next h) h dh.2
  ∧ Forall (λ a, Imp.next h ≤ a < Imp.next dh.2)%nat dh.1.*2.
Proof.
  unfold Imp.count_init.
  induction skills as [|s skills IH] using rev_ind; simpl.
  - split; [apply ext_refl|constructor].
  - rewrite foldl_app. simpl. destruct IH as [Hext Hd].
    destruct (foldl _ _ skills) as [d h1]. simpl in *. split.
    + eapply ext_trans; [done|]. eapply fresh_ext, (fresh_alloc [] h1).
      by destruct Hext.
    + destruct Hext as [Hn _]. clear -Hd Hn.
      induction d as [|[k v] d IH]; simpl.
      * repeat constructor; lia.
      * inversion Hd as [|?? Hv Hd']; subst.
        destruct (decide _); rewrite fmap_cons; simpl.
        -- constructor; [lia|]. eapply Forall_impl; [exact Hd'|]. simpl. intros; lia.
        -- constructor; [lia|]. by apply IH.
Qed.

Lemma dict_get_elem_of {V} (d : dict V) k v :
  Imp.dict_get d k = Ok v → v ∈ d.*2.
Proof.
  unfold Imp.dict_get. induction d as [|[k' v'] d IH]; simpl; [done|].
  destruct (decide _); [|by right; apply IH].
  intros [= ->]. left.
Qed.

Lemma skills_count_ext candidates h d h' :
  Imp.skills_count S candidates h = Ok (d, h') →
  Imp.ext (Imp.next h) h h'.
Proof.
  unfold Imp.skills_count. intros H. inv_bind H as skills Es.
  inv_bind H as h1 Eh. injection H as _ <-.
  destruct (count_init_ext skills h) as [Hext Hd].
  eapply ext_trans; [done|]. revert Eh.
  apply for_each_Ok_inv; [|apply ext_refl].
  intros h2 p h3 _ Hh2 Hbody. inv_bind Hbody as skills' Es'. revert Hbody.
  apply for_each_Ok_inv; [|done].
  intros h4 skill h5 _ Hh4 Hbody. inv_bind Hbody as b Eb.
  destruct b; [|by injection Hbody as <-].
  inv_bind Hbody as a Ea. injection Hbody as <-.
  eapply ext_trans; [done|]. apply (only_ext _ a); [|apply only_store].
  apply dict_get_elem_of in Ea.
  apply (proj1 (Forall_forall _ _) Hd) in Ea. lia.
Qed.

(** The search writes to list objects of its own only. *)
Lemma found_teams_ext people h teams h' :
  Imp.found_teams order S people h = Ok (teams, h') →
  Imp.ext (Imp.next h) h h'.
Proof.
  unfold Imp.found_teams. intros H. inv_bind H as [c h1] Ec.
  inv_bind H as [d h2] Ed.
  unfold Imp.people_have_skills in Ec. inv_bind Ec as l El.
  injection Ec as <- <-. simpl in *. apply skills_count_ext in Ed.
  simpl in Ed.
  assert (Imp.ext (Imp.next h) h h2) as Hh2.
  { eapply ext_trans; [eapply fresh_ext, (fresh_alloc l h); lia|].
    eapply ext_mono; [|done]. lia. }
  revert H.
  apply (for_each_Ok_inv (λ st, Imp.ext (Imp.next h) h st.2)).
  - intros [teams1 h3] curr [teams2 h4] _ Hh3 Hbody. simpl in *.
    apply outer_body_ext in Hbody. eapply ext_trans; [done|].
    eapply ext_mono; [|done]. by destruct Hh3.
  - simpl. eapply ext_trans; [done|].
    eapply fresh_ext, fresh_alloc. by destruct Hh2.
Qed.

End frame.

(** ** The objects of typed persons *)

#[global] Instance of_typed_inj : Inj (=) (=) Imp.of_typed.
Proof. intros [???] [???] [= -> -> ->]. done. Qed.

Lemma elem_of_of_typed (x : Person.t) (l : list Person.t) :
  Imp.of_typed x ∈ Imp.of_typed <$> l ↔ x ∈ l.
Proof. apply (list_elem_of_fmap_inj _). Qed.

Lemma list_remove_first_of_typed (x : Person.t) l l' :
  list_remove_first x l = Ok l' →
  list_remove_first (Imp.of_typed x) (Imp.of_typed <$> l)
  = Ok (Imp.of_typed <$> l').
Proof.
  revert l'. induction l as [|y l IH]; intros l' H; csimpl in *; [done|].
  destruct (decide (y = x)) as [->|Hne].
  - injection H as <-. by rewrite decide_True.
  - rewrite decide_False by (by intros ?%(inj _)).
    inv_bind H as l1 El. injection H as <-. by rewrite (IH l1).
Qed.

Lemma insert_sorted_of_typed (x : Person.t) l :
  Imp.insert_sorted_r Imp.lt (Imp.of_typed x) (Imp.of_typed <$> l)
  = Ok (Imp.of_typed <$> insert_sorted Person.lt x l).
Proof.
  induction l as [|y l IH]; csimpl; [done|].
  unfold Person.lt at 1. destruct (String.ltb _ _); simpl; [|done].
  by rewrite IH.
Qed.

Lemma stable_sort_of_typed (l : list Person.t) :
  Imp.stable_sort_r Imp.lt (Imp.of_typed <$> l)
  = Ok (Imp.of_typed <$> sort_team l).
Proof.
  induction l as [|x l IH]; csimpl; [done|].
  rewrite IH. simpl. apply insert_sorted_of_typed.
Qed.

Lemma price_of_typed (tm : team) :
  Imp.price (Imp.of_typed <$> tm) = Ok (price tm).
Proof.
  unfold Imp.price, price. generalize 0.
  induction tm as [|p tm IH]; intros acc; csimpl; [done|]. apply IH.
Qed.

(** ** Sets *)

Section sets_facts.
Context (order : list string → list string).
Context (Horder : ∀ l x, x ∈ order l ↔ x ∈ l).

Lemma rep_set_empty : Imp.rep (Imp.set_empty order) ∅.
Proof. intros x. unfold Imp.set_empty. rewrite Horder. set_solver. Qed.

Lemma rep_set_of l : Imp.rep (Imp.set_of order l) (list_to_set l).
Proof.
  intros x. unfold Imp.set_of.
  by rewrite Horder, elem_of_remove_dups, elem_of_list_to_set.
Qed.

Lemma rep_set_and a b X Y :
  Imp.rep a X → Imp.rep b Y → Imp.rep (Imp.set_and order a b) (X ∩ Y).
Proof.
  unfold Imp.rep. intros Ha Hb x. unfold Imp.set_and.
  rewrite Horder, list_elem_of_filter, elem_of_intersection, Ha, Hb. tauto.
Qed.

Lemma rep_set_update a b X Y :
  Imp.rep a X → Imp.rep b Y → Imp.rep (Imp.set_update order a b) (X ∪ Y).
Proof.
  unfold Imp.rep. intros Ha Hb x. unfold Imp.set_update.
  by rewrite Horder, elem_of_remove_dups, elem_of_app, elem_of_union, Ha, Hb.
Qed.

Lemma set_eq_rep a b X Y :
  Imp.rep a X → Imp.rep b Y → Imp.set_eq a b = bool_decide (X = Y).
Proof.
  unfold Imp.rep. intros Ha Hb. unfold Imp.set_eq. apply bool_decide_ext. split.
  - intros [H1 H2]. apply set_eq. intros x. rewrite <-Ha, <-Hb. split; auto.
  - intros ->. split; intros x; rewrite Ha, Hb; done.
Qed.

Lemma set_issubset_rep a b X Y :
  Imp.rep a X → Imp.rep b Y → Imp.set_issubset a b = bool_decide (X ⊆ Y).
Proof.
  unfold Imp.rep. intros Ha Hb. unfold Imp.set_issubset. apply bool_decide_ext. split.
  - intros H x. rewrite <-Ha, <-Hb. apply H.
  - intros H x. rewrite Ha, Hb. apply H.
Qed.

Lemma rep_nil a X : Imp.rep a X → a = [] ↔ X = ∅.
Proof.
  unfold Imp.rep. intros Ha. split.
  - intros ->. apply set_eq. intros x. rewrite <-Ha. set_solver.
  - intros ->. destruct a as [|x a]; [done|].
    exfalso. apply (not_elem_of_empty (C:=gset string) x), Ha. left.
Qed.

Section skills.
Context (S : list string).

Lemma rep_relevant p :
  Imp.rep
    (Imp.set_and order (Imp.set_of order (Person.skills p))
       (Imp.set_of order S))
    (relevant S p).
Proof. apply rep_set_and; apply rep_set_of. Qed.

Lemma relevant_of_typed p :
  Imp.relevant order (Some S) (Imp.of_typed p)
  = Ok (Imp.set_and order (Imp.set_of order (Person.skills p))
          (Imp.set_of order S)).
Proof. done. Qed.

Lemma team_skills_fold a X (tm : team) :
  Imp.rep a X →
  ∃ a', for_each
          (λ ts p, r ← Imp.relevant order (Some S) p;
                   Ok (Imp.set_update order ts r))
          (Imp.of_typed <$> tm) a = Ok a'
        ∧ Imp.rep a' (foldl (λ ts p, ts ∪ relevant S p) X tm).
Proof.
  revert a X. induction tm as [|p tm IH]; intros a X Ha.
  - simpl. eauto.
  - rewrite fmap_cons. cbn [for_each foldl]. rewrite relevant_of_typed.
    simpl. apply IH. apply rep_set_update; [done|apply rep_relevant].
Qed.

Lemma team_skills_of_typed (tm : team) :
  ∃ a, Imp.team_skills order (Some S) (Imp.of_typed <$> tm) = Ok a
       ∧ Imp.rep a (team_skills S tm).
Proof. apply team_skills_fold, rep_set_empty. Qed.

Lemma skills_except_of_typed (tm : team) i :
  ∃ a, Imp.skills_except order (Some S) (Imp.of_typed <$> tm) i = Ok a
       ∧ Imp.rep a (Task.skills_except S tm i).
Proof.
  unfold Imp.skills_except, Task.skills_except. rewrite length_fmap.
  generalize (seq 0 (length tm)). intros js.
  pose proof rep_set_empty as H. revert H.
  generalize (Imp.set_empty order) (∅ : gset string).
  induction js as [|j js IH]; intros a X Ha; [simpl; eauto|].
  cbn [for_each foldl]. destruct (decide (i = j)); simpl; [by apply IH|].
  rewrite list_lookup_fmap. destruct (tm !! j) as [q|]; simpl; [|by apply IH].
  apply IH. apply rep_set_update; [done|apply rep_relevant].
Qed.

Lemma filter_candidates_of_typed (P : list Person.t) :
  Imp.filter_result
    (λ p, a ← Imp.set_arg order (Some S);
          b ← Imp.set_arg order (Imp.p_skills p);
          Ok (bool_decide (Imp.set_and order a b ≠ [])))
    (Imp.of_typed <$> P)
  = Ok (Imp.of_typed <$> Task.people_have_skills S P).
Proof.
  unfold Task.people_have_skills.
  induction P as [|p P IH]; [done|].
  rewrite fmap_cons. cbn [Imp.filter_result]. rewrite IH. simpl.
  rewrite filter_cons.
  assert (Imp.set_and order (Imp.set_of order S)
            (Imp.set_of order (Person.skills p)) = [] ↔ relevant S p = ∅)
    as Hiff.
  { rewrite (rep_nil _ (list_to_set S ∩ list_to_set (Person.skills p)))
      by (apply rep_set_and; apply rep_set_of).
    unfold relevant. set_solver. }
  destruct (decide (relevant S p ≠ ∅)).
  - rewrite bool_decide_true by tauto. done.
  - rewrite bool_decide_false by tauto. done.
Qed.

End skills.
End sets_facts.

(** ** Loops that go together *)

Lemma for_each_sim {A B St1 St2} (R : St1 → St2 → Prop) (f : A → B)
  (body1 : St1 → A → result St1) (body2 : St2 → B → result St2)
  l st1 st2 st1' :
  (∀ x s1 s2 s1', x ∈ l → R s1 s2 → body1 s1 x = Ok s1' →
                  ∃ s2', body2 s2 (f x) = Ok s2' ∧ R s1' s2') →
  R st1 st2 → for_each body1 l st1 = Ok st1' →
  ∃ st2', for_each body2 (f <$> l) st2 = Ok st2' ∧ R st1' st2'.
Proof.
  revert st1 st2. induction l as [|x l IH]; intros st1 st2 Hbody HR Hrun.
  - simpl in *. injection Hrun as <-. eauto.
  - rewrite fmap_cons. cbn [for_each] in *. inv_bind Hrun as s1 E1.
    destruct (Hbody x st1 st2 s1) as (s2 & -> & HR'); [left|done..|].
    simpl. eapply IH; [|done..]. intros ??????. eapply Hbody; [by right|done..].
Qed.

Lemma for_each_sim_id {A St1 St2} (R : St1 → St2 → Prop)
  (body1 : St1 → A → result St1) (body2 : St2 → A → result St2)
  l st1 st2 st1' :
  (∀ x s1 s2 s1', x ∈ l → R s1 s2 → body1 s1 x = Ok s1' →
                  ∃ s2', body2 s2 x = Ok s2' ∧ R s1' s2') →
  R st1 st2 → for_each body1 l st1 = Ok st1' →
  ∃ st2', for_each body2 l st2 = Ok st2' ∧ R st1' st2'.
Proof.
  intros Hbody HR Hrun. rewrite <-(list_fmap_id l).
  by eapply for_each_sim.
Qed.

Lemma for_each_break_sim {A B St1 St2} (R J : St1 → St2 → Prop) (f : A → B)
  (body1 : St1 → A → result (St1 * flow))
  (body2 : St2 → B → result (St2 * flow)) l st1 st2 st1' :
  (∀ s1 s2, R s1 s2 → J s1 s2) →
  (∀ x s1 s2 r1, x ∈ l → R s1 s2 → body1 s1 x = Ok r1 →
                 ∃ s2', body2 s2 (f x) = Ok (s2', r1.2)
                        ∧ if r1.2 is Continue then R r1.1 s2' else J r1.1 s2') →
  R st1 st2 → for_each_break body1 l st1 = Ok st1' →
  ∃ st2', for_each_break body2 (f <$> l) st2 = Ok st2' ∧ J st1' st2'.
Proof.
  intros HRJ. revert st1 st2.
  induction l as [|x l IH]; intros st1 st2 Hbody HR Hrun.
  - simpl in *. injection Hrun as <-. eauto.
  - rewrite fmap_cons. cbn [for_each_break] in *. inv_bind Hrun as r1 E1.
    destruct (Hbody x st1 st2 r1) as (s2 & -> & HR'); [left|done..|].
    simpl. destruct (r1.2).
    + eapply IH; [|done..]. intros ??????. eapply Hbody; [by right|done..].
    + injection Hrun as <-. eauto.
Qed.

(** ** List objects that hold teams *)

Lemma holds_ext n h h' a tm :
  holds h a tm → (a < n)%nat → Imp.ext n h h' → holds h' a tm.
Proof. unfold holds. intros H Ha [_ Hc]. by rewrite Hc. Qed.

Lemma holds_only b h h' a tm :
  holds h a tm → a ≠ b → Imp.only b h h' → holds h' a tm.
Proof. unfold holds. intros H Ha [_ Hc]. by rewrite Hc. Qed.

Lemma holds_fresh b h h' a tm :
  holds h a tm → (a < Imp.next h)%nat → Imp.fresh b h h' → holds h' a tm.
Proof. unfold holds. intros H Ha (-> & _ & Hc). rewrite Hc; [done|lia]. Qed.

Lemma teams_holds_ext n h h' locs teams :
  Forall2 (holds h) locs teams → Forall (λ a, a < n)%nat locs →
  Imp.ext n h h' → Forall2 (holds h') locs teams.
Proof.
  intros H2 Hn Hext. induction H2 as [|a tm locs teams Ha H2 IH].
  - constructor.
  - inversion Hn; subst. constructor; [by eapply holds_ext|by apply IH].
Qed.

Lemma holds_elem_of h a tm locs teams :
  holds h a tm → Forall2 (holds h) locs teams →
  Imp.cell h a ∈ Imp.cell h <$> locs ↔ tm ∈ teams.
Proof.
  unfold holds. intros Ha H2. rewrite Ha.
  induction H2 as [|b tm' locs teams Hb H2 IH]; csimpl.
  - by rewrite !elem_of_nil.
  - rewrite !elem_of_cons, IH, Hb. split.
    + intros [?%(inj _)|?]; auto.
    + intros [->|?]; auto.
Qed.

Lemma add_team_holds h t tm locs teams :
  holds h t tm → Forall2 (holds h) locs teams →
  Forall2 (holds h) (Imp.add_team t locs h) (Task.add_team tm teams).
Proof.
  intros Ht H2. unfold Imp.add_team, Task.add_team.
  pose proof (holds_elem_of _ _ _ _ _ Ht H2) as Hiff.
  destruct (decide (tm ∈ teams)).
  - by rewrite decide_True by tauto.
  - rewrite decide_False by tauto. apply Forall2_app; [done|]. by constructor.
Qed.

Lemma add_team_bound (n : nat) h t locs :
  Forall (λ a, a < n)%nat locs → (t < n)%nat →
  Forall (λ a, a < n)%nat (Imp.add_team t locs h).
Proof.
  intros Hl Ht. unfold Imp.add_team. destruct (decide _); [done|].
  apply Forall_app. split; [done|]. by constructor.
Qed.

(** ** The dictionary of list objects *)

Lemma dict_set_values {V} (d : dict V) k v x :
  x ∈ (dict_set d k v).*2 → x = v ∨ x ∈ d.*2.
Proof.
  induction d as [|[k' v'] d IH]; simpl.
  - rewrite list_elem_of_singleton. auto.
  - destruct (decide (k' = k)); rewrite !fmap_cons, !elem_of_cons; simpl.
    + tauto.
    + intros [->|?%IH]; tauto.
Qed.

Lemma dict_set_NoDup_values {V} (d : dict V) k v :
  NoDup d.*2 → v ∉ d.*2 → NoDup (dict_set d k v).*2.
Proof.
  induction d as [|[k' v'] d IH]; intros Hnd Hv.
  - apply NoDup_singleton.
  - rewrite fmap_cons in Hnd, Hv. cbn [dict_set snd] in *.
    apply NoDup_cons in Hnd as [Hv' Hnd]. apply not_elem_of_cons in Hv as [? Hv].
    destruct (decide (k' = k)); rewrite fmap_cons; simpl.
    + by apply NoDup_cons.
    + apply NoDup_cons. split; [|by apply IH].
      intros [->|?]%dict_set_values; done.
Qed.

Lemma dict_rel_ext n h h' d_i d :
  dict_rel h d_i d → Forall (λ a, a < n)%nat d_i.*2 → Imp.ext n h h' →
  dict_rel h' d_i d.
Proof.
  unfold dict_rel. intros H2 Hn Hext.
  induction H2 as [|[k a] [k' v] d_i d [Hk Ha] H2 IH]; [constructor|].
  rewrite fmap_cons in Hn. inversion Hn; subst.
  constructor; [|by apply IH]. split; [done|]. by eapply holds_ext.
Qed.

Lemma dict_set_rel h d_i d s :
  dict_rel h d_i d → Forall (λ a, a < Imp.next h)%nat d_i.*2 →
  dict_rel (Imp.alloc [] h).2 (dict_set d_i s (Imp.next h)) (dict_set d s []).
Proof.
  intros H2 Hlt.
  assert (Imp.ext (Imp.next h) h (Imp.alloc [] h).2) as Hext.
  { eapply fresh_ext, fresh_alloc. lia. }
  assert (holds (Imp.alloc [] h).2 (Imp.next h) []) as Hnew.
  { unfold holds. simpl. by rewrite fn_lookup_insert. }
  unfold dict_rel in *.
  induction H2 as [|[k a] [k' v] d_i d [Hk Ha] H2 IH]; cbn [dict_set] in *.
  - constructor; [|constructor]. done.
  - simpl in Hk. subst k'. rewrite fmap_cons in Hlt. inversion Hlt as [|?? Hlta Hlt']; subst.
    destruct (decide (k = s)).
    + constructor; [done|]. by eapply (dict_rel_ext (Imp.next h)).
    + constructor; [|by apply IH]. split; [done|]. by eapply holds_ext.
Qed.

Lemma count_init_rel skills h :
  let dh := Imp.count_init skills h in
  dict_rel dh.2 dh.1 (foldl (λ d s, dict_set d s []) [] skills)
  ∧ NoDup dh.1.*2.
Proof.
  induction skills as [|s skills IH] using rev_ind.
  - split; constructor.
  - pose proof (count_init_ext skills h) as [_ Hrange].
    unfold Imp.count_init in *. rewrite !foldl_app. simpl in *.
    destruct (foldl _ ([], h) skills) as [d_i h1]. simpl in *.
    destruct IH as [Hrel Hnd]. split.
    + apply dict_set_rel; [done|]. eapply Forall_impl; [done|].
      simpl. intros; lia.
    + apply dict_set_NoDup_values; [done|]. intros Hin.
      apply (proj1 (Forall_forall _ _) Hrange) in Hin. lia.
Qed.

Lemma dict_rel_only a h h' d_i d :
  dict_rel h d_i d → a ∉ d_i.*2 → Imp.only a h h' → dict_rel h' d_i d.
Proof.
  unfold dict_rel. intros H2 Hn Hext.
  induction H2 as [|[k b] [k' v] d_i d [Hk Hb] H2 IH]; [constructor|].
  rewrite fmap_cons in Hn. apply not_elem_of_cons in Hn as [Hab Hn].
  constructor; [|by apply IH]. split; [done|]. by eapply holds_only.
Qed.

Lemma dict_append_rel h d_i d k p d' :
  dict_rel h d_i d → NoDup d_i.*2 → dict_append d k p = Ok d' →
  ∃ a, Imp.dict_get d_i k = Ok a
       ∧ dict_rel (Imp.store a (Imp.cell h a ++ [Imp.of_typed p]) h) d_i d'.
Proof.
  unfold Imp.dict_get. intros H2. revert d'.
  induction H2 as [|[k1 a] [k2 v] d_i d [Hk Ha] H2 IH]; intros d' Hnd Happ;
    cbn [dict_append dict_lookup] in *; [done|].
  simpl in Hk. subst k2. rewrite fmap_cons in Hnd.
  apply NoDup_cons in Hnd as [Ha' Hnd].
  simpl in *. destruct (decide (k1 = k)).
  - injection Happ as <-. exists a. split; [done|]. constructor.
    + split; [done|]. unfold holds in *. simpl.
      by rewrite fn_lookup_insert, Ha, fmap_app.
    + eapply dict_rel_only; [done..|apply only_store].
  - inv_bind Happ as d1 E1. injection Happ as <-.
    destruct (IH d1 Hnd E1) as (b & Hget & Hrel).
    destruct (dict_lookup d_i k) as [b'|] eqn:Hl; [|done].
    injection Hget as ->. exists b. split; [done|]. constructor; [|done].
    split; [done|]. eapply holds_only; [done| |apply only_store].
    simpl. intros ->. apply Ha'. apply (dict_get_elem_of d_i k).
    unfold Imp.dict_get. by rewrite Hl.
Qed.

Lemma unique_rel h d_i d :
  dict_rel h d_i d →
  omap (λ item : string * Imp.loc,
          if decide (length (Imp.cell h item.2) = 1%nat)
          then head (Imp.cell h item.2) else None) d_i
  = Imp.of_typed <$> Task.people_with_unique_skills d.
Proof.
  unfold dict_rel, Task.people_with_unique_skills. intros H2.
  induction H2 as [|[k1 a] [k2 v] d_i d [Hk Ha] H2 IH]; [done|].
  cbn [omap list_omap]. unfold holds in Ha. simpl in *.
  rewrite Ha, length_fmap, IH.
  destruct (decide (length v = 1%nat)); [|done].
  destruct v as [|p v]; simpl; done.
Qed.

(** ** The search on the store does what the functional model does *)

Section refinement.
Context (order : list string → list string).
Context (Horder : ∀ l x, x ∈ order l ↔ x ∈ l).
Context (S : list string).

Lemma people_have_skills_sim people P h :
  holds h people P →
  Imp.people_have_skills order (Some S) people h
  = Ok (Imp.alloc (Imp.of_typed <$> Task.people_have_skills S P) h).
Proof.
  unfold holds, Imp.people_have_skills. intros ->.
  by rewrite filter_candidates_of_typed.
Qed.

Lemma skills_count_sim c candidates h d :
  holds h c candidates → (c < Imp.next h)%nat →
  Task.skills_count S candidates = Ok d →
  ∃ d_i h', Imp.skills_count (Some S) c h = Ok (d_i, h') ∧ dict_rel h' d_i d.
Proof.
  intros Hc Hlt Hrun. unfold Imp.skills_count, Task.skills_count in *.
  cbn [Imp.iter_skills mbind result_bind].
  destruct (count_init_ext S h) as [Hext Hrange].
  destruct (count_init_rel S h) as [Hrel Hnd].
  destruct (Imp.count_init S h) as [d_i h1]. simpl in *.
  apply (holds_ext _ _ _ _ _ Hc Hlt) in Hext as Hc1. unfold holds in Hc1.
  rewrite Hc1.
  eapply (for_each_sim (λ d hc, dict_rel hc d_i d)) in Hrun
    as (h2 & -> & Hrel2); [simpl; eauto| |done].
  intros p d1 hc1 d2 _ Hd1 Hbody.
  eapply (for_each_sim_id (λ d hc, dict_rel hc d_i d)); [|done..].
  intros s d3 hc3 d4 _ Hd3 Hb. simpl in *.
  destruct (decide (s ∈ Person.skills p)).
  - rewrite bool_decide_true by done.
    destruct (dict_append_rel _ _ _ _ _ _ Hd3 Hnd Hb) as (a & -> & Hrel4).
    simpl. eauto.
  - rewrite bool_decide_false by done. injection Hb as <-. eauto.
Qed.

Lemma redundant_loop t r tm ts_i ts js acc h :
  holds h t tm → holds h r acc → r ≠ t → Imp.rep ts_i ts →
  ∃ h', for_each
          (λ h i,
             ts ← Imp.skills_except order (Some S) (Imp.cell h t) i;
             if Imp.set_eq ts ts_i then
               Ok (if Imp.cell h t !! i is Some x
                   then Imp.store r (Imp.cell h r ++ [x]) h else h)
             else Ok h)
          js h = Ok h'
        ∧ holds h' r
            (acc ++ omap (λ i, if decide (Task.skills_except S tm i = ts)
                               then tm !! i else None) js).
Proof.
  intros Ht Hr Hne Hts. revert acc h Ht Hr.
  induction js as [|j js IH]; intros acc h Ht Hr.
  - simpl. rewrite app_nil_r. eauto.
  - cbn [for_each omap list_omap]. unfold holds in Ht at 1. rewrite Ht.
    destruct (skills_except_of_typed order Horder S tm j) as (a & -> & Ha).
    simpl. rewrite (set_eq_rep _ _ _ _ Ha Hts).
    destruct (decide (Task.skills_except S tm j = ts)).
    + rewrite bool_decide_true by done. simpl. rewrite list_lookup_fmap.
      destruct (tm !! j) as [x|]; simpl; [|by apply IH].
      destruct (IH (acc ++ [x])
                  (Imp.store r (Imp.cell h r ++ [Imp.of_typed x]) h))
        as (h' & Hrun & Hh').
      * eapply holds_only; [done| |apply only_store]. done.
      * unfold holds in *. rewrite cell_store, Hr, fmap_app. done.
      * exists h'. split; [done|]. by rewrite cons_middle, (assoc_L (++)).
    + rewrite bool_decide_false by done. simpl. by apply IH.
Qed.

Lemma redundant_sim t tm ts_i ts h :
  holds h t tm → (t < Imp.next h)%nat → Imp.rep ts_i ts →
  ∃ h', Imp.redundant order (Some S) t ts_i h = Ok (Imp.next h, h')
        ∧ holds h' (Imp.next h) (Task.redundant S tm ts).
Proof.
  intros Ht Hlt Hts. unfold Imp.redundant, Task.redundant.
  assert (holds (Imp.alloc [] h).2 t tm) as Ht1.
  { eapply holds_fresh; [done..|apply fresh_alloc]. }
  assert (holds (Imp.alloc [] h).2 (Imp.next h) []) as Hr1.
  { unfold holds. simpl. by rewrite fn_lookup_insert. }
  destruct (redundant_loop t (Imp.next h) tm ts_i ts (seq 0 (length tm)) []
              (Imp.alloc [] h).2) as (h' & Hrun & Hr); [done..|lia|done|].
  unfold holds in Ht1. rewrite Ht1, length_fmap.
  change (Imp.alloc [] h).1 with (Imp.next h). rewrite Hrun. simpl. eauto.
Qed.

Lemma prune_sim removed r t tm tm' ts_i ts h :
  holds h r removed → holds h t tm → r ≠ t → Imp.rep ts_i ts →
  Task.prune S removed tm ts = Ok tm' →
  ∃ h', Imp.prune order (Some S) r t ts_i h = Ok h' ∧ holds h' t tm'.
Proof.
  intros Hr Ht Hne Hts Hrun. unfold Imp.prune, Task.prune in *.
  unfold holds in Hr. rewrite Hr.
  eapply (for_each_sim (λ tm hc, holds hc t tm)); [|done..].
  intros x tm1 h1 tm2 _ Ht1 Hbody. simpl in *.
  inv_bind Hbody as tm3 Erem. unfold holds in Ht1. rewrite Ht1.
  rewrite (list_remove_first_of_typed _ _ _ Erem). simpl.
  rewrite fn_lookup_insert.
  destruct (team_skills_of_typed order Horder S tm3) as (a & -> & Ha).
  simpl. rewrite (set_eq_rep _ _ _ _ Ha Hts).
  destruct (decide (team_skills S tm3 ≠ ts)).
  - injection Hbody as <-. rewrite bool_decide_false by done.
    eexists. split; [done|]. unfold holds. simpl.
    by rewrite !fn_lookup_insert, fmap_app.
  - injection Hbody as <-. rewrite bool_decide_true by (by apply dec_stable).
    eexists. split; [done|]. unfold holds. simpl.
    by rewrite fn_lookup_insert.
Qed.

Lemma sort_team_sim t tm h :
  holds h t tm →
  ∃ h', Imp.sort_team t h = Ok h' ∧ holds h' t (sort_team tm).
Proof.
  unfold holds, Imp.sort_team. intros ->. rewrite stable_sort_of_typed.
  simpl. eexists. split; [done|]. apply cell_store.
Qed.

Lemma init_sim u unique curr h :
  holds h u unique → (u < Imp.next h)%nat →
  ∃ ts_i h', Imp.init order (Some S) u (Imp.of_typed curr) h
             = Ok (Imp.next h, ts_i, h')
             ∧ Imp.rep ts_i (Task.init S unique curr).2
             ∧ holds h' (Imp.next h) (Task.init S unique curr).1.
Proof.
  intros Hu Hlt. unfold Imp.init, Task.init.
  assert (holds (Imp.alloc (Imp.cell h u) h).2 u unique) as Hu1.
  { eapply holds_fresh; [done..|apply fresh_alloc]. }
  unfold holds in Hu1. rewrite Hu1.
  change (Imp.alloc (Imp.cell h u) h).1 with (Imp.next h).
  destruct (decide (curr ∈ unique)).
  - rewrite decide_True by (by apply elem_of_of_typed).
    rewrite cell_alloc. unfold holds in Hu. rewrite Hu.
    destruct (team_skills_of_typed order Horder S unique) as (a & -> & Ha).
    simpl. eexists _, _. split_and!; [done..|].
    unfold holds. simpl. by rewrite fn_lookup_insert.
  - rewrite decide_False by (by rewrite elem_of_of_typed).
    rewrite cell_store, cell_alloc. unfold holds in Hu. rewrite Hu.
    replace ((Imp.of_typed <$> unique) ++ [Imp.of_typed curr])
      with (Imp.of_typed <$> (unique ++ [curr])) by (by rewrite fmap_app).
    destruct (team_skills_of_typed order Horder S (unique ++ [curr]))
      as (a & -> & Ha).
    simpl. eexists _, _. split_and!; [done..|].
    unfold holds. simpl. by rewrite fn_lookup_insert.
Qed.
End refinement.

Section search_refinement.
Context (order : list string → list string).
Context (Horder : ∀ l x, x ∈ order l ↔ x ∈ l).
Context (S : list string) (u : Imp.loc) (unique : list Person.t).

(** One round of the inner loop. *)
Lemma inner_body_sim curr st st_i other r :
  inner_rel u unique st st_i →
  Task.inner_body S unique curr st other = Ok r →
  ∃ st_i', Imp.inner_body order (Some S) u (Imp.of_typed curr) st_i
             (Imp.of_typed other) = Ok (st_i', r.2)
           ∧ if r.2 is Continue then inner_rel u unique r.1 st_i'
             else teams_rel st_i'.2 st_i'.1.2 r.1.2.
Proof.
  destruct st as [[tm ts] teams], st_i as [[[t ts_i] locs] h].
  unfold inner_rel. cbn [fst snd].
  intros (Ht & Hts & H2 & Hlocs & Hut & Htn & Hu) Hrun.
  unfold Task.inner_body, Imp.inner_body in *.
  assert ((Imp.of_typed other = Imp.of_typed curr
           ∨ Imp.of_typed other ∈ Imp.cell h t)
          ↔ (other = curr ∨ other ∈ tm)) as Hiff.
  { unfold holds in Ht. rewrite Ht, elem_of_of_typed. split.
    - intros [?%(inj _)|?]; auto.
    - intros [->|?]; auto. }
  destruct (decide (other = curr ∨ other ∈ tm)).
  { rewrite decide_True by tauto. injection Hrun as <-.
    eexists. split; [done|]. simpl. done. }
  rewrite decide_False by tauto. rewrite relevant_of_typed.
  cbn [mbind result_bind Imp.set_arg].
  pose proof (rep_relevant order Horder S other) as Hos.
  pose proof (rep_set_of order Horder S) as Hall.
  rewrite (set_eq_rep _ _ _ _ Hos Hall).
  destruct (decide (relevant S other = list_to_set S)).
  { rewrite bool_decide_true by done. injection Hrun as <-. cbn [fst snd].
    set (h1 := (Imp.alloc [Imp.of_typed other] h).2).
    change (Imp.alloc [Imp.of_typed other] h).1 with (Imp.next h).
    assert (Imp.ext (Imp.next h) h h1) as Hext.
    { eapply fresh_ext, fresh_alloc. lia. }
    assert (holds h1 (Imp.next h) [other]) as Hnew.
    { unfold holds, h1. by rewrite cell_alloc. }
    assert (Forall (λ a, a < Imp.next h)%nat locs) as Hlocs'.
    { eapply Forall_impl; [done|]. simpl. intros; lia. }
    assert (Forall2 (holds h1) locs teams) as H2'.
    { by eapply teams_holds_ext. }
    pose proof (holds_elem_of _ _ _ _ _ Hnew H2') as Hmem.
    unfold Task.add_team. destruct (decide ([other] ∈ teams)).
    - rewrite decide_True by tauto. eexists. split; [done|].
      split; [done|]. simpl. eapply Forall_impl; [done|]. simpl. intros; lia.
    - rewrite decide_False by tauto. eexists. split; [done|]. cbn [fst snd].
      assert (Imp.ext (Imp.next h1) h1 (Imp.alloc (Imp.cell h1 (Imp.next h)) h1).2)
        as Hext2.
      { eapply fresh_ext, fresh_alloc. lia. }
      split.
      + apply Forall2_app.
        * eapply teams_holds_ext; [done| |done].
          eapply Forall_impl; [done|]. simpl. intros; lia.
        * constructor; [|constructor]. unfold holds in *.
          by rewrite cell_alloc.
      + apply Forall_app. split.
        * eapply Forall_impl; [done|]. simpl. intros; lia.
        * constructor; [|constructor]. simpl. lia. }
  rewrite bool_decide_false by done.
  rewrite (set_issubset_rep _ _ _ _ Hos Hts).
  destruct (if decide (relevant S other ⊆ ts) then _ else _)
    as [tm1 ts1] eqn:Ef.
  destruct (if bool_decide (relevant S other ⊆ ts) then _ else _)
    as [ts1_i h1] eqn:Ei.
  assert (holds h1 t tm1 ∧ Imp.rep ts1_i ts1 ∧ Imp.only t h h1)
    as (Ht1 & Hts1 & Honly).
  { destruct (decide (relevant S other ⊆ ts)).
    - rewrite bool_decide_true in Ei by done.
      injection Ef as <- <-. injection Ei as <- <-.
      split_and!; [done..|apply only_refl].
    - rewrite bool_decide_false in Ei by done.
      injection Ef as <- <-. injection Ei as <- <-. split_and!.
      + unfold holds in *. by rewrite cell_store, Ht, fmap_app.
      + by apply rep_set_update.
      + apply only_store. }
  clear Ef Ei.
  assert (Imp.ext t h h1) as Hext1 by (by apply (only_ext _ t)).
  pose proof Honly as [Hn1 _].
  rewrite (set_eq_rep _ _ _ _ Hts1 Hall).
  destruct (decide (ts1 = list_to_set S)).
  - rewrite bool_decide_true by done.
    inv_bind Hrun as tm2 Eprune.
    destruct (Task.init S unique curr) as [tm3 ts3] eqn:Einit.
    injection Hrun as <-.
    destruct (redundant_sim order Horder S t tm1 ts1_i ts1 h1)
      as (h2 & Er & Hr2); [done|lia|done|].
    rewrite Er. cbn [mbind result_bind fst snd].
    pose proof (redundant_fresh _ _ _ _ _ _ _ Er) as Hf2.
    assert (holds h2 t tm1) as Ht2.
    { eapply holds_fresh; [done| |done]. lia. }
    destruct (prune_sim order Horder S (Task.redundant S tm1 ts1)
                (Imp.next h1) t tm1 tm2 ts1_i ts1 h2)
      as (h3 & Ep & Ht3); [done|done|lia|done|done|].
    rewrite Ep. cbn [mbind result_bind].
    pose proof (prune_only _ _ _ _ _ _ _ Ep) as Ho3.
    destruct (sort_team_sim t tm2 h3) as (h4 & Es & Ht4); [done|].
    rewrite Es. cbn [mbind result_bind].
    pose proof (sort_team_only _ _ _ Es) as Ho4.
    assert (Imp.ext t h h4) as Hext4.
    { eapply ext_trans; [done|]. eapply ext_trans.
      { eapply fresh_ext; [|done]. lia. }
      eapply ext_trans; by apply (only_ext _ t). }
    pose proof Hf2 as (_ & Hn2 & _). pose proof Ho3 as [Hn3 _].
    pose proof Ho4 as [Hn4 _].
    assert (holds h4 u unique) as Hu4 by (by eapply holds_ext).
    destruct (init_sim order Horder S u unique curr h4)
      as (ts5_i & h5 & Ei & Hts5 & Ht5); [done|lia|].
    rewrite Ei. cbn [mbind result_bind fst snd].
    pose proof (init_fresh _ _ _ _ _ _ _ _ Ei) as Hf5.
    rewrite Einit in Hts5, Ht5. cbn [fst snd] in *.
    eexists. split; [done|]. cbn [fst snd].
    assert (Forall2 (holds h4) locs teams) as H24.
    { by eapply teams_holds_ext. }
    assert (Forall (λ a, a < Imp.next h4)%nat (Imp.add_team t locs h4))
      as Hb4.
    { apply add_team_bound; [|lia].
      eapply Forall_impl; [done|]. simpl. intros; lia. }
    pose proof Hf5 as (_ & Hn5 & _).
    split_and!; [done|done| |done|lia|lia|].
    + eapply teams_holds_ext; [by apply add_team_holds|done|].
      eapply fresh_ext; [|done]. lia.
    + eapply holds_fresh; [done| |done]. lia.
  - rewrite bool_decide_false by done. injection Hrun as <-.
    eexists. split; [done|]. cbn [fst snd].
    split_and!; [done|done| |done|done|lia|].
    + by eapply teams_holds_ext.
    + by eapply holds_ext.
Qed.

(** One round of the outer loop. *)
Lemma outer_body_sim c candidates teams locs h curr teams' :
  teams_rel h locs teams → holds h c candidates → holds h u unique →
  (c < Imp.next h)%nat → (u < Imp.next h)%nat →
  Task.outer_body S unique candidates teams curr = Ok teams' →
  ∃ locs' h', Imp.outer_body order (Some S) u c (locs, h) (Imp.of_typed curr)
              = Ok (locs', h')
              ∧ teams_rel h' locs' teams'.
Proof.
  intros [H2 Hlocs] Hc Hu Hcn Hun Hrun.
  unfold Task.outer_body, Imp.outer_body in *. cbn [fst snd].
  destruct (init_sim order Horder S u unique curr h)
    as (ts_i & h1 & Ei & Hts & Ht); [done..|].
  rewrite Ei. cbn [mbind result_bind fst snd Imp.set_arg].
  pose proof (init_fresh _ _ _ _ _ _ _ _ Ei) as Hf.
  pose proof Hf as (_ & Hn1 & _).
  assert (Imp.ext (Imp.next h) h h1) as Hext.
  { eapply fresh_ext; [|done]. lia. }
  destruct (Task.init S unique curr) as [tm ts] eqn:Einit.
  cbn [fst snd] in *.
  pose proof (rep_set_of order Horder S) as Hall.
  rewrite (set_eq_rep _ _ _ _ Hts Hall).
  assert (Forall2 (holds h1) locs teams) as H21 by (by eapply teams_holds_ext).
  destruct (decide (ts = list_to_set S)).
  - rewrite bool_decide_true by done. injection Hrun as <-.
    destruct (sort_team_sim (Imp.next h) tm h1) as (h2 & Es & Ht2); [done|].
    rewrite Es. cbn [mbind result_bind].
    pose proof (sort_team_only _ _ _ Es) as Ho2. pose proof Ho2 as [Hn2 _].
    eexists _, _. split; [done|].
    assert (Forall2 (holds h2) locs teams) as H22.
    { eapply teams_holds_ext; [done..|]. by apply (only_ext _ (Imp.next h)). }
    split; [by apply add_team_holds|].
    apply add_team_bound; [|lia].
    eapply Forall_impl; [done|]. simpl. intros; lia.
  - rewrite bool_decide_false by done.
    inv_bind Hrun as st Eloop. injection Hrun as <-.
    assert (holds h1 c candidates) as Hc1 by (by eapply holds_ext).
    unfold holds in Hc1. rewrite Hc1.
    eapply (for_each_break_sim (inner_rel u unique)
              (λ st st_i, teams_rel st_i.2 st_i.1.2 st.2)) in Eloop
      as ([[[t' ts'] locs'] h'] & -> & HJ).
    + cbn [mbind result_bind fst snd] in *. eauto.
    + intros [[tm1 ts1] teams1] [[[t1 ts1_i] locs1] h3].
      unfold inner_rel, teams_rel. cbn [fst snd].
      intros (_ & _ & ? & ? & _ & ? & _). split; [done|].
      eapply Forall_impl; [done|]. simpl. intros; lia.
    + intros other st1 st1_i r1 _ Hrel Hbody.
      exact (inner_body_sim _ _ _ _ _ Hrel Hbody).
    + unfold inner_rel. cbn [fst snd]. split_and!; [done..| |lia|lia|].
      * done.
      * by eapply holds_ext.
Qed.

End search_refinement.

(** ** The ranking *)

Lemma teams_rel_Forall2 h locs teams :
  teams_rel h locs teams
  ↔ Forall2 (λ a tm, holds h a tm ∧ (a < Imp.next h)%nat) locs teams.
Proof.
  unfold teams_rel. split.
  - intros [H2 Hb]. induction H2 as [|a tm locs teams Ha H2 IH].
    + constructor.
    + inversion Hb; subst. constructor; [done|]. by apply IH.
  - intros H2. induction H2 as [|a tm locs teams [Ha Hb] H2 [IH1 IH2]].
    + split; constructor.
    + split; by constructor.
Qed.

Lemma teams_rel_ext n h h' locs teams :
  teams_rel h locs teams → (Imp.next h ≤ n)%nat → Imp.ext n h h' →
  teams_rel h' locs teams.
Proof.
  intros [H2 Hb] Hn Hext. split.
  - eapply teams_holds_ext; [done| |done].
    eapply Forall_impl; [done|]. simpl. intros; lia.
  - destruct Hext as [Hle _]. eapply Forall_impl; [done|]. simpl. intros; lia.
Qed.

Lemma keys_of_teams h locs teams :
  Forall2 (holds h) locs teams →
  map_result (λ a, Imp.price (Imp.cell h a)) locs = Ok (price <$> teams).
Proof.
  intros H2. induction H2 as [|a tm locs teams Ha H2 IH]; [done|].
  cbn [map_result]. unfold holds in Ha. rewrite Ha, price_of_typed, IH. done.
Qed.

Section ranking.
Context {A : Type} (R : A → team → Prop).

Lemma insert_sorted_keyed a tm ps ts :
  R a tm →
  Forall2 (λ (x : Z * A) tm, x.1 = price tm ∧ R x.2 tm) ps ts →
  Forall2 (λ (x : Z * A) tm, x.1 = price tm ∧ R x.2 tm)
    (insert_sorted (λ x y : Z * A, x.1 <? y.1) (price tm, a) ps)
    (insert_sorted (λ t1 t2, price t1 <? price t2) tm ts).
Proof.
  intros Ha H2. induction H2 as [|[k b] tm' ps ts [Hk Hb] H2 IH].
  - by repeat constructor.
  - cbn [insert_sorted fst]. simpl in Hk. subst k.
    destruct (price tm' <? price tm).
    + by constructor.
    + by repeat constructor.
Qed.

Lemma stable_sort_keyed locs teams :
  Forall2 R locs teams →
  Forall2 R
    (stable_sort (λ x y : Z * A, x.1 <? y.1) (zip (price <$> teams) locs)).*2
    (sort_by_price teams).
Proof.
  intros H2. apply Forall2_fmap_l. unfold sort_by_price.
  apply (Forall2_impl (λ (x : Z * A) tm, x.1 = price tm ∧ R x.2 tm));
    [|by intros ?? [_ ?]].
  induction H2 as [|a tm locs teams Ha H2 IH]; [constructor|].
  rewrite fmap_cons. cbn [zip zip_with stable_sort].
  by apply insert_sorted_keyed.
Qed.
End ranking.

Lemma sort_by_price_sim h locs teams :
  teams_rel h locs teams →
  ∃ locs', Imp.sort_by_price locs h = Ok locs'
           ∧ teams_rel h locs' (sort_by_price teams).
Proof.
  intros Hrel. unfold Imp.sort_by_price.
  rewrite (keys_of_teams h locs teams) by apply Hrel. simpl.
  eexists. split; [done|]. apply teams_rel_Forall2, stable_sort_keyed.
  by apply teams_rel_Forall2.
Qed.

(** ** The whole call *)

Section call_refinement.
Context (order : list string → list string).
Context (Horder : ∀ l x, x ∈ order l ↔ x ∈ l).

Lemma found_teams_sim S people P h teams :
  holds h people P → (people < Imp.next h)%nat →
  Task.found_teams S P = Ok teams →
  ∃ locs h', Imp.found_teams order (Some S) people h = Ok (locs, h')
             ∧ teams_rel h' locs teams.
Proof.
  intros Hp Hlt Hrun. unfold Imp.found_teams, Task.found_teams in *.
  rewrite (people_have_skills_sim order Horder S people P h Hp).
  cbn [mbind result_bind].
  set (candidates := Task.people_have_skills S P) in *.
  set (h1 := (Imp.alloc (Imp.of_typed <$> candidates) h).2).
  change (Imp.alloc (Imp.of_typed <$> candidates) h).1 with (Imp.next h).
  set (c := Imp.next h).
  assert (holds h1 c candidates) as Hc1.
  { unfold holds, h1, c. by rewrite cell_alloc. }
  inv_bind Hrun as d Ed.
  destruct (skills_count_sim S c candidates h1 d) as (d_i & h2 & Esc & Hd);
    [done|simpl; lia|done|].
  rewrite Esc. cbn [mbind result_bind fst snd].
  pose proof (skills_count_ext _ _ _ _ _ Esc) as Hext2.
  assert (holds h2 c candidates) as Hc2.
  { eapply holds_ext; [done| |done]. simpl. lia. }
  unfold Imp.people_with_unique_skills. rewrite (unique_rel h2 d_i d Hd).
  set (unique := Task.people_with_unique_skills d) in *.
  set (h3 := (Imp.alloc (Imp.of_typed <$> unique) h2).2).
  change (Imp.alloc (Imp.of_typed <$> unique) h2).1 with (Imp.next h2).
  set (u := Imp.next h2).
  assert (Imp.ext u h2 h3) as Hext3.
  { eapply fresh_ext, fresh_alloc. unfold u. lia. }
  assert (c < u)%nat as Hcu.
  { destruct Hext2 as [Hle _]. simpl in Hle. unfold c, u. lia. }
  assert (holds h3 c candidates) as Hc3 by (by eapply holds_ext).
  assert (holds h3 u unique) as Hu3.
  { unfold holds, h3, u. by rewrite cell_alloc. }
  unfold holds in Hc3. rewrite Hc3.
  eapply (for_each_sim
            (λ teams st, teams_rel st.2 st.1 teams ∧ holds st.2 c candidates
                         ∧ holds st.2 u unique ∧ (u < Imp.next st.2)%nat))
    in Hrun as ([locs h4] & Hrun' & Hrel & _).
  - eauto.
  - intros curr teams1 [locs1 h5] teams2 _ (Hrel1 & Hc5 & Hu5 & Hlt5) Hbody.
    cbn [fst snd] in *.
    destruct (outer_body_sim order Horder S u unique c candidates
                teams1 locs1 h5 curr teams2)
      as (locs2 & h6 & Hrun2 & Hrel2); [done|done|done|lia|done|done|].
    exists (locs2, h6). split; [done|]. cbn [fst snd].
    apply outer_body_ext in Hrun2 as Hext6. pose proof Hext6 as [Hle6 _].
    split_and!; [done| | |lia];
      eapply (holds_ext (Imp.next h5)); (done || lia).
  - cbn [fst snd]. split_and!; [split; constructor|done|done|simpl; lia].
Qed.

(** On the objects of typed persons the call returns, and the team objects
    it leaves hold the teams of the functional model, whatever the order in
    which the sets list their elements. *)
Lemma make_teams_sim self P people h locs0 :
  holds h people P → (people < Imp.next h)%nat →
  ∃ locs h' teams,
    Imp.make_teams order (Imp.task_of_typed self locs0) people h
    = Ok (Imp.task_of_typed self locs, h')
    ∧ Task.make_teams self P
      = Ok (Task.mk (Task.name self) (Task.skills self) teams, P)
    ∧ teams_rel h' locs teams
    ∧ Imp.ext (Imp.next h) h h'.
Proof.
  intros Hp Hlt.
  destruct (make_teams_Ok self P) as (teams & Hf & _ & Hm).
  destruct (found_teams_sim _ _ _ _ _ Hp Hlt Hf) as (locs & h' & Hrun & Hrel).
  destruct (sort_by_price_sim _ _ _ Hrel) as (locs' & Hsort & Hrel').
  exists locs', h', (sort_by_price teams).
  unfold Imp.make_teams. cbn [Imp.task_of_typed Imp.t_skills Imp.t_name].
  rewrite Hrun. cbn [mbind result_bind fst snd]. rewrite Hsort.
  split_and!; [done..|]. by apply found_teams_ext in Hrun.
Qed.

End call_refinement.

(** ** The order of the sets does not matter *)

Lemma result_rel_eq {A} (r1 r2 : result A) : result_rel (=) r1 r2 ↔ r1 = r2.
Proof.
  destruct r1, r2; simpl; split; try done; try (by intros ->);
    by intros [= ->].
Qed.

Lemma bind_rel {A1 A2 B1 B2} (R : A1 → A2 → Prop) (Q : B1 → B2 → Prop)
  (m1 : result A1) (m2 : result A2) k1 k2 :
  result_rel R m1 m2 →
  (∀ a b, R a b → result_rel Q (k1 a) (k2 b)) →
  result_rel Q (m1 ≫= k1) (m2 ≫= k2).
Proof. destruct m1, m2; simpl; try done. intros ? H. by apply H. Qed.

Lemma for_each_rel {A St1 St2} (R : St1 → St2 → Prop)
  (body1 : St1 → A → result St1) (body2 : St2 → A → result St2) l st1 st2 :
  (∀ s1 s2 x, x ∈ l → R s1 s2 → result_rel R (body1 s1 x) (body2 s2 x)) →
  R st1 st2 → result_rel R (for_each body1 l st1) (for_each body2 l st2).
Proof.
  revert st1 st2. induction l as [|x l IH]; intros st1 st2 Hbody HR; [done|].
  cbn [for_each]. eapply bind_rel; [apply Hbody; [left|done]|].
  intros s1 s2 Hs. apply IH; [|done]. intros ?????. apply Hbody; [by right|done].
Qed.

Lemma for_each_break_rel {A St1 St2} (R : St1 → St2 → Prop)
  (body1 : St1 → A → result (St1 * flow))
  (body2 : St2 → A → result (St2 * flow)) l st1 st2 :
  (∀ s1 s2 x, x ∈ l → R s1 s2 →
     result_rel (λ r1 r2, R r1.1 r2.1 ∧ r1.2 = r2.2)
       (body1 s1 x) (body2 s2 x)) →
  R st1 st2 →
  result_rel R (for_each_break body1 l st1) (for_each_break body2 l st2).
Proof.
  revert st1 st2. induction l as [|x l IH]; intros st1 st2 Hbody HR; [done|].
  cbn [for_each_break]. eapply bind_rel; [apply Hbody; [left|done]|].
  intros [s1 f1] [s2 f2] [Hs Hf]. simpl in *. subst f2.
  destruct f1; [|done].
  apply IH; [|done]. intros ?????. apply Hbody; [by right|done].
Qed.

Lemma filter_result_ext {A} (f g : A → result bool) l :
  (∀ x, x ∈ l → f x = g x) → Imp.filter_result f l = Imp.filter_result g l.
Proof.
  induction l as [|x l IH]; intros H; [done|].
  cbn [Imp.filter_result]. rewrite (H x) by left.
  rewrite IH; [done|]. intros y Hy. apply H. by right.
Qed.

Section orders.
Context (order1 order2 : list string → list string).
Context (Horder1 : ∀ l x, x ∈ order1 l ↔ x ∈ l).
Context (Horder2 : ∀ l x, x ∈ order2 l ↔ x ∈ l).

Lemma same_set_empty : Imp.same (Imp.set_empty order1) (Imp.set_empty order2).
Proof. intros x. unfold Imp.set_empty. by rewrite Horder1, Horder2. Qed.

Lemma same_set_of l : Imp.same (Imp.set_of order1 l) (Imp.set_of order2 l).
Proof. intros x. unfold Imp.set_of. by rewrite Horder1, Horder2. Qed.

Lemma same_set_and a1 a2 b1 b2 :
  Imp.same a1 a2 → Imp.same b1 b2 →
  Imp.same (Imp.set_and order1 a1 b1) (Imp.set_and order2 a2 b2).
Proof.
  unfold Imp.same. intros Ha Hb x. unfold Imp.set_and.
  by rewrite Horder1, Horder2, !list_elem_of_filter, Ha, Hb.
Qed.

Lemma same_set_update a1 a2 b1 b2 :
  Imp.same a1 a2 → Imp.same b1 b2 →
  Imp.same (Imp.set_update order1 a1 b1) (Imp.set_update order2 a2 b2).
Proof.
  unfold Imp.same. intros Ha Hb x. unfold Imp.set_update.
  by rewrite Horder1, Horder2, !elem_of_remove_dups, !elem_of_app, Ha, Hb.
Qed.

Lemma same_set_eq a1 a2 b1 b2 :
  Imp.same a1 a2 → Imp.same b1 b2 → Imp.set_eq a1 b1 = Imp.set_eq a2 b2.
Proof.
  unfold Imp.same. intros Ha Hb. unfold Imp.set_eq. apply bool_decide_ext.
  split; intros [H1 H2]; split; intros x.
  - rewrite <-Ha, <-Hb. apply H1.
  - rewrite <-Ha, <-Hb. apply H2.
  - rewrite Ha, Hb. apply H1.
  - rewrite Ha, Hb. apply H2.
Qed.

Lemma same_set_issubset a1 a2 b1 b2 :
  Imp.same a1 a2 → Imp.same b1 b2 →
  Imp.set_issubset a1 b1 = Imp.set_issubset a2 b2.
Proof.
  unfold Imp.same. intros Ha Hb. unfold Imp.set_issubset.
  apply bool_decide_ext. split; intros H x.
  - rewrite <-Ha, <-Hb. apply H.
  - rewrite Ha, Hb. apply H.
Qed.

Lemma same_nil a1 a2 : Imp.same a1 a2 → a1 = [] ↔ a2 = [].
Proof.
  unfold Imp.same. intros Ha. split; intros ->.
  - destruct a2 as [|x a2]; [done|]. exfalso.
    apply (not_elem_of_nil x), Ha. left.
  - destruct a1 as [|x a1]; [done|]. exfalso.
    apply (not_elem_of_nil x), Ha. left.
Qed.

Lemma set_arg_rel x :
  result_rel Imp.same (Imp.set_arg order1 x) (Imp.set_arg order2 x).
Proof. destruct x; simpl; [apply same_set_of|done]. Qed.

Section skills.
Context (S : option (list string)).

Lemma relevant_rel p :
  result_rel Imp.same (Imp.relevant order1 S p) (Imp.relevant order2 S p).
Proof.
  unfold Imp.relevant. eapply bind_rel; [apply set_arg_rel|].
  intros a1 a2 Ha. eapply bind_rel; [apply set_arg_rel|].
  intros b1 b2 Hb. simpl. by apply same_set_and.
Qed.

Lemma team_skills_rel tm :
  result_rel Imp.same (Imp.team_skills order1 S tm)
    (Imp.team_skills order2 S tm).
Proof.
  unfold Imp.team_skills. apply for_each_rel; [|apply same_set_empty].
  intros a1 a2 p _ Ha. eapply bind_rel; [apply relevant_rel|].
  intros r1 r2 Hr. simpl. by apply same_set_update.
Qed.

Lemma skills_except_rel tm i :
  result_rel Imp.same (Imp.skills_except order1 S tm i)
    (Imp.skills_except order2 S tm i).
Proof.
  unfold Imp.skills_except. apply for_each_rel; [|apply same_set_empty].
  intros a1 a2 j _ Ha. destruct (decide (i = j)); [done|].
  destruct (tm !! j); [|done]. eapply bind_rel; [apply relevant_rel|].
  intros r1 r2 Hr. simpl. by apply same_set_update.
Qed.

Lemma people_have_skills_order people h :
  Imp.people_have_skills order1 S people h
  = Imp.people_have_skills order2 S people h.
Proof.
  unfold Imp.people_have_skills. f_equal. apply filter_result_ext.
  intros p _. apply result_rel_eq.
  eapply bind_rel; [apply set_arg_rel|]. intros a1 a2 Ha.
  eapply bind_rel; [apply set_arg_rel|]. intros b1 b2 Hb. simpl.
  f_equal. apply bool_decide_ext.
  by rewrite (same_nil _ _ (same_set_and _ _ _ _ Ha Hb)).
Qed.

Lemma redundant_order t ts1 ts2 h :
  Imp.same ts1 ts2 →
  Imp.redundant order1 S t ts1 h = Imp.redundant order2 S t ts2 h.
Proof.
  intros Hts. unfold Imp.redundant. f_equal. apply result_rel_eq.
  apply for_each_rel; [|done]. intros h1 ? i _ <-.
  eapply bind_rel; [apply skills_except_rel|]. intros a1 a2 Ha.
  rewrite (same_set_eq _ _ _ _ Ha Hts). by destruct (Imp.set_eq a2 ts2).
Qed.

Lemma prune_order removed t ts1 ts2 h :
  Imp.same ts1 ts2 →
  Imp.prune order1 S removed t ts1 h = Imp.prune order2 S removed t ts2 h.
Proof.
  intros Hts. unfold Imp.prune. apply result_rel_eq.
  apply for_each_rel; [|done]. intros h1 ? r _ <-.
  eapply bind_rel; [by apply result_rel_eq|]. intros l ? <-. cbn zeta.
  eapply bind_rel; [apply team_skills_rel|]. intros a1 a2 Ha.
  rewrite (same_set_eq _ _ _ _ Ha Hts). by destruct (Imp.set_eq a2 ts2).
Qed.

Lemma init_rel unique curr h :
  result_rel (λ r1 r2, r1.1.1 = r2.1.1 ∧ Imp.same r1.1.2 r2.1.2 ∧ r1.2 = r2.2)
    (Imp.init order1 S unique curr h) (Imp.init order2 S unique curr h).
Proof.
  unfold Imp.init. cbn zeta.
  eapply bind_rel; [apply team_skills_rel|]. intros a1 a2 Ha. by simpl.
Qed.

Lemma inner_body_rel unique curr st1 st2 other :
  same_state st1 st2 →
  result_rel (λ r1 r2, same_state r1.1 r2.1 ∧ r1.2 = r2.2)
    (Imp.inner_body order1 S unique curr st1 other)
    (Imp.inner_body order2 S unique curr st2 other).
Proof.
  destruct st1 as [[[t ts1] teams] h], st2 as [[[t' ts2] teams'] h'].
  unfold same_state. cbn [fst snd]. intros (<- & Hts & <- & <-).
  unfold Imp.inner_body. destruct (decide _); [by simpl|].
  eapply bind_rel; [apply relevant_rel|]. intros os1 os2 Hos.
  eapply bind_rel; [apply set_arg_rel|]. intros all1 all2 Hall.
  rewrite (same_set_eq _ _ _ _ Hos Hall). destruct (Imp.set_eq os2 all2).
  { destruct (decide _); by simpl. }
  rewrite (same_set_issubset _ _ _ _ Hos Hts).
  destruct (if Imp.set_issubset os2 ts2 then (ts1, h) else _)
    as [ts1' h1] eqn:E1.
  destruct (if Imp.set_issubset os2 ts2 then (ts2, h) else _)
    as [ts2' h2] eqn:E2.
  assert (Imp.same ts1' ts2' ∧ h1 = h2) as [Hts' <-].
  { destruct (Imp.set_issubset os2 ts2).
    - injection E1 as <- <-. injection E2 as <- <-. done.
    - injection E1 as <- <-. injection E2 as <- <-.
      split; [by apply same_set_update|done]. }
  clear E1 E2.
  eapply bind_rel; [apply set_arg_rel|]. intros all1' all2' Hall'.
  rewrite (same_set_eq _ _ _ _ Hts' Hall'). destruct (Imp.set_eq ts2' all2').
  - rewrite (redundant_order t ts1' ts2' h1 Hts').
    eapply bind_rel; [by apply result_rel_eq|]. intros rh ? <-.
    rewrite (prune_order rh.1 t ts1' ts2' rh.2 Hts').
    eapply bind_rel; [by apply result_rel_eq|]. intros h3 ? <-.
    eapply bind_rel; [by apply result_rel_eq|]. intros h4 ? <-.
    eapply bind_rel; [apply init_rel|].
    intros r1 r2 (? & ? & ?). by simpl.
  - by simpl.
Qed.

Lemma outer_body_order unique candidates st curr :
  Imp.outer_body order1 S unique candidates st curr
  = Imp.outer_body order2 S unique candidates st curr.
Proof.
  unfold Imp.outer_body. apply result_rel_eq.
  eapply bind_rel; [apply init_rel|].
  intros [[t1 ts1] h1] [[t2 ts2] h2]. cbn [fst snd]. intros (<- & Hts & <-).
  eapply bind_rel; [apply set_arg_rel|]. intros all1 all2 Hall.
  rewrite (same_set_eq _ _ _ _ Hts Hall). destruct (Imp.set_eq ts2 all2).
  - by apply result_rel_eq.
  - eapply bind_rel.
    + apply (for_each_break_rel same_state); [|done].
      intros s1 s2 other _ Hs. by apply inner_body_rel.
    + intros [[[t3 ts3] teams3] h3] [[[t4 ts4] teams4] h4].
      unfold same_state. cbn [fst snd]. by intros (_ & _ & <- & <-).
Qed.

Lemma found_teams_order people h :
  Imp.found_teams order1 S people h = Imp.found_teams order2 S people h.
Proof.
  unfold Imp.found_teams. rewrite people_have_skills_order.
  apply result_rel_eq.
  eapply bind_rel; [by apply result_rel_eq|]. intros ch ? <-.
  eapply bind_rel; [by apply result_rel_eq|]. intros dh ? <-. cbn zeta.
  apply for_each_rel; [|done]. intros st ? curr _ <-.
  apply result_rel_eq, outer_body_order.
Qed.
End skills.

(** The outcome of [make_teams], the exception it raises or the task and
    the store it leaves, is the same in whatever order the sets list their
    elements. *)
Lemma make_teams_order self people h :
  Imp.make_teams order1 self people h = Imp.make_teams order2 self people h.
Proof. unfold Imp.make_teams. by rewrite found_teams_order. Qed.

End orders.

Lemma teams_of_holds h locs teams :
  Forall2 (holds h) locs teams →
  Imp.cell h <$> locs = (λ tm : team, Imp.of_typed <$> tm) <$> teams.
Proof.
  intros H2. induction H2 as [|a tm locs teams Ha H2 IH]; [done|].
  rewrite !fmap_cons. by rewrite Ha, IH.
Qed.

Lemma teams_of_ext n h h' locs :
  Forall (λ a, a < n)%nat locs → Imp.ext n h h' →
  Imp.cell h' <$> locs = Imp.cell h <$> locs.
Proof.
  intros Hb [_ Hc]. induction Hb as [|a locs Ha Hb IH]; [done|].
  rewrite !fmap_cons. by rewrite Hc, IH.
Qed.

(** C9: [make_teams] writes to list objects of its own only.  When the call
    returns, the task has the name and the skills it had, and every list
    object there was before the call, the list of people among them, holds
    what it held: the same persons, with the same fields, in the same order.
    This is so for all person objects, also those with missing fields, and
    whatever the order of the sets. *)
Theorem make_teams_frame order self people h self' h' :
  Imp.make_teams order self people h = Ok (self', h') →
  Imp.t_name self' = Imp.t_name self
  ∧ Imp.t_skills self' = Imp.t_skills self
  ∧ ((people < Imp.next h)%nat → Imp.cell h' people = Imp.cell h people)
  ∧ ∀ a, (a < Imp.next h)%nat → Imp.cell h' a = Imp.cell h a.
Proof.
  unfold Imp.make_teams. intros H. inv_bind H as [locs h1] Ef.
  inv_bind H as teams Es. injection H as <- <-.
  apply found_teams_ext in Ef as [_ Hc]. simpl. split_and!; auto.
Qed.

Lemma make_teams_frame_witness :
  let Mark := Imp.Person None None (Some ["js"]) in
  let Petya :=
    Imp.Person (Some "Petya") (Some 2500) (Some ["C++"; "python"]) in
  let Vitalya :=
    Imp.Person (Some "Vitalya") (Some 3000) (Some ["python"; "C++"]) in
  let h := (Imp.alloc [Mark; Vitalya; Petya] (Imp.Heap (λ _, []) 0)).2 in
  ∃ self' h',
    Imp.make_teams (@reverse string)
      (Imp.Task (Some "Three") (Some ["C++"; "python"]) []) 0%nat h
    = Ok (self', h')
    ∧ Imp.teams_of self' h' = [[Petya]; [Vitalya]]
    ∧ Imp.t_name self' = Some "Three"
    ∧ Imp.t_skills self' = Some ["C++"; "python"]
    ∧ ((0 < Imp.next h)%nat → Imp.cell h' 0%nat = [Mark; Vitalya; Petya])
    ∧ ∀ a, (a < Imp.next h)%nat → Imp.cell h' a = Imp.cell h a.
Proof.
  intros Mark Petya Vitalya h.
  destruct (Imp.make_teams (@reverse string)
              (Imp.Task (Some "Three") (Some ["C++"; "python"]) []) 0%nat h)
    as [[self' h']|e] eqn:E; [|by vm_compute in E].
  exists self', h'. split; [done|]. split.
  - vm_compute in E. injection E as <- <-. reflexivity.
  - exact (make_teams_frame (@reverse string) _ 0%nat h self' h' E).
Defined.

(** C6: [make_teams] is deterministic.  The one thing the program does not
    decide is the order in which a set lists its elements, and the outcome
    of a call, the exception it raises or the task and the store it leaves,
    is the same for any two such orders, whatever the person objects are.
    On a roster of persons with typed fields the call returns and its teams
    are those of the functional model; a second run, on the task and the
    store the first run left and with sets in any other order, ends with the
    same team list and does not touch the team objects of the first. *)
Theorem make_teams_twice order1 order2 self people h :
  (∀ l x, x ∈ order1 l ↔ x ∈ l) → (∀ l x, x ∈ order2 l ↔ x ∈ l) →
  Imp.make_teams order1 self people h = Imp.make_teams order2 self people h
  ∧ ∀ P self_t locs0,
      self = Imp.task_of_typed self_t locs0 →
      holds h people P → (people < Imp.next h)%nat →
      ∃ self_f self1 h1 self2 h2,
        Task.make_teams self_t P = Ok (self_f, P)
        ∧ Imp.make_teams order1 self people h = Ok (self1, h1)
        ∧ Imp.make_teams order2 self1 people h1 = Ok (self2, h2)
        ∧ Imp.teams_of self1 h1
          = (λ tm : team, Imp.of_typed <$> tm) <$> Task.teams self_f
        ∧ Imp.teams_of self2 h2 = Imp.teams_of self1 h1
        ∧ Imp.teams_of self1 h2 = Imp.teams_of self1 h1.
Proof.
  intros Ho1 Ho2. split; [by apply make_teams_order|].
  intros P self_t locs0 -> Hp Hlt.
  destruct (make_teams_sim order1 Ho1 self_t P people h locs0 Hp Hlt)
    as (locs1 & h1 & teams1 & Hrun1 & Hf1 & [H21 Hb1] & Hext1).
  assert (holds h1 people P) as Hp1 by (by eapply holds_ext).
  assert (people < Imp.next h1)%nat as Hlt1 by (destruct Hext1; lia).
  destruct (make_teams_sim order2 Ho2 self_t P people h1 locs1 Hp1 Hlt1)
    as (locs2 & h2 & teams2 & Hrun2 & Hf2 & [H22 Hb2] & Hext2).
  rewrite Hf1 in Hf2. injection Hf2 as <-.
  eexists _, _, _, _, _. split_and!; [done..| | |];
    unfold Imp.teams_of; simpl.
  - by apply teams_of_holds.
  - by rewrite (teams_of_holds _ _ _ H21), (teams_of_holds _ _ _ H22).
  - by eapply teams_of_ext.
Qed.

Lemma make_teams_twice_witness :
  let Mark := Person.mk "Mark" 1500 ["js"; "python"] in
  let Petya := Person.mk "Petya" 2500 ["C++"; "python"; "postgresql"] in
  let Vitalya := Person.mk "Vitalya" 3000 ["C++"; "postgresql"; "python"] in
  let P := [Mark; Vitalya; Petya] in
  let self_t := Task.mk "Three" ["C++"; "python"] [] in
  let self := Imp.task_of_typed self_t [] in
  let h := (Imp.alloc (Imp.of_typed <$> P) (Imp.Heap (λ _, []) 0)).2 in
  Imp.make_teams id self 0%nat h = Imp.make_teams (@reverse string) self 0%nat h
  ∧ ∃ self_f self1 h1 self2 h2,
      Task.make_teams self_t P = Ok (self_f, P)
      ∧ Imp.make_teams id self 0%nat h = Ok (self1, h1)
      ∧ Imp.make_teams (@reverse string) self1 0%nat h1 = Ok (self2, h2)
      ∧ Imp.teams_of self1 h1
        = (λ tm : team, Imp.of_typed <$> tm) <$> Task.teams self_f
      ∧ Imp.teams_of self2 h2 = Imp.teams_of self1 h1
      ∧ Imp.teams_of self1 h2 = Imp.teams_of self1 h1.
Proof.
  intros Mark Petya Vitalya P self_t self h.
  destruct (make_teams_twice id (@reverse string) self 0%nat h)
    as [Hsame Htwice].
  - intros l x. reflexivity.
  - intros l x. apply elem_of_reverse.
  - split; [exact Hsame|].
    apply (Htwice P self_t []).
    + reflexivity.
    + reflexivity.
    + simpl. lia.
Defined.

(** ** Construction from the input document *)

Lemma map_result_records {B} (new : value → result B)
  (init : dict value → B) (records : list (dict value)) :
  (∀ kw, "self" ∉ kw.*1 → new (VDict kw) = Ok (init kw)) →
  Forall (λ kw : dict value, "self" ∉ kw.*1) records →
  map_result new (VDict <$> records) = Ok (init <$> records).
Proof.
  intros Hnew. induction 1 as [|kw records Hkw _ IH]; [done|].
  csimpl. by rewrite (Hnew kw Hkw), IH.
Qed.

(** ** Missing keys *)

Lemma dict_lookup_None {V} (d : dict V) k : k ∉ d.*1 → dict_lookup d k = None.
Proof.
  induction d as [|[k' v] d IH]; [done|].
  rewrite fmap_cons, not_elem_of_cons. simpl. intros [Hne Hk].
  rewrite decide_False by done. by apply IH.
Qed.

Lemma py_get_None (kw : dict value) k : k ∉ kw.*1 → py_get kw k = VNone.
Proof. intros Hk. unfold py_get. by rewrite dict_lookup_None. Qed.

Lemma for_each_raises {A St} (body : St → A → result St) l e x st :
  x ∈ l → (∀ st, body st x = Raise e) →
  (∀ st y, y ∈ l → body st y = Raise e ∨ ∃ st', body st y = Ok st') →
  for_each body l st = Raise e.
Proof.
  intros Hx Hbx. revert st. induction l as [|y l IH]; intros st Hall.
  - by apply elem_of_nil in Hx.
  - cbn [for_each]. destruct (Hall st y) as [->|[st' Hb]]; [left|done|].
    rewrite Hb. simpl. apply elem_of_cons in Hx as [->|Hx].
    + specialize (Hbx st). congruence.
    + apply IH; [done|]. intros st1 z Hz. apply Hall. by right.
Qed.

Lemma map_result_raises {A B} (f : A → result B) l e x :
  x ∈ l → f x = Raise e →
  (∀ y, y ∈ l → f y = Raise e ∨ ∃ b, f y = Ok b) →
  map_result f l = Raise e.
Proof.
  intros Hx Hfx. induction l as [|y l IH]; intros Hall.
  - by apply elem_of_nil in Hx.
  - cbn [map_result]. destruct (Hall y) as [->|[b Hb]]; [left|done|].
    rewrite Hb. simpl. apply elem_of_cons in Hx as [->|Hx]; [congruence|].
    rewrite IH; [done..|]. intros z Hz. apply Hall. by right.
Qed.

Lemma filter_result_raises {A} (f : A → result bool) l e x :
  x ∈ l → f x = Raise e →
  (∀ y, y ∈ l → f y = Raise e ∨ ∃ b, f y = Ok b) →
  Imp.filter_result f l = Raise e.
Proof.
  intros Hx Hfx. induction l as [|y l IH]; intros Hall.
  - by apply elem_of_nil in Hx.
  - cbn [Imp.filter_result]. destruct (Hall y) as [->|[b Hb]]; [left|done|].
    rewrite Hb. simpl. apply elem_of_cons in Hx as [->|Hx]; [congruence|].
    rewrite IH; [done..|]. intros z Hz. apply Hall. by right.
Qed.

(** A person without skills stops [make_teams] where the candidates are
    chosen. *)
Lemma make_teams_person_no_skills order self people h p :
  p ∈ Imp.cell h people → Imp.p_skills p = None →
  Imp.make_teams order self people h = Raise TypeError.
Proof.
  intros Hp Hs. unfold Imp.make_teams, Imp.found_teams, Imp.people_have_skills.
  rewrite (filter_result_raises _ _ TypeError p); [done|done| |].
  - rewrite Hs. by destruct (Imp.t_skills self).
  - intros q _. destruct (Imp.t_skills self), (Imp.p_skills q); simpl; eauto.
Qed.

(** So does a task without skills, there or where the skills are counted. *)
Lemma make_teams_task_no_skills order self people h :
  Imp.t_skills self = None →
  Imp.make_teams order self people h = Raise TypeError.
Proof.
  intros Hs. unfold Imp.make_teams, Imp.found_teams, Imp.people_have_skills.
  rewrite Hs. destruct (Imp.cell h people) as [|p l]; [done|]. done.
Qed.

Lemma price_no_salary tm p :
  p ∈ tm → Imp.p_salary p = None → Imp.price tm = Raise TypeError.
Proof.
  intros Hp Hs. unfold Imp.price. apply (for_each_raises _ _ _ p); [done| |].
  - intros acc. by rewrite Hs.
  - intros acc q _. destruct (Imp.p_salary q); eauto.
Qed.

Lemma price_Ok_or_TypeError tm :
  Imp.price tm = Raise TypeError ∨ ∃ z, Imp.price tm = Ok z.
Proof.
  unfold Imp.price. generalize 0.
  induction tm as [|p tm IH]; intros acc; simpl; [eauto|].
  destruct (Imp.p_salary p); simpl; [apply IH|by left].
Qed.

(** A stored team with a member without salary stops [make_teams] where the
    teams are ranked. *)
Lemma make_teams_member_no_salary order self people h locs h' a p :
  Imp.found_teams order (Imp.t_skills self) people h = Ok (locs, h') →
  a ∈ locs → p ∈ Imp.cell h' a → Imp.p_salary p = None →
  Imp.make_teams order self people h = Raise TypeError.
Proof.
  intros Hf Ha Hp Hs. unfold Imp.make_teams. rewrite Hf. simpl.
  unfold Imp.sort_by_price.
  rewrite (map_result_raises _ _ TypeError a); [done|done| |].
  - by eapply price_no_salary.
  - intros b _. apply price_Ok_or_TypeError.
Qed.

Lemma of_obj_missing_skills (kw : dict value) p :
  "skills" ∉ kw.*1 → Imp.of_obj (Person.__init__ kw) = Some p →
  Imp.p_skills p = None.
Proof.
  intros Hk. unfold Imp.of_obj, Person.__init__. simpl.
  rewrite (py_get_None kw "skills") by done.
  destruct (py_get kw "name"), (py_get kw "salary"); simpl;
    intros [= <-]; done.
Qed.

Lemma of_obj_missing_salary (kw : dict value) p :
  "salary" ∉ kw.*1 → Imp.of_obj (Person.__init__ kw) = Some p →
  Imp.p_salary p = None.
Proof.
  intros Hk. unfold Imp.of_obj, Person.__init__. simpl.
  rewrite (py_get_None kw "salary") by done.
  destruct (py_get kw "name"), (py_get kw "skills") as [| | |vs|]; simpl;
    try done; try (by intros [= <-]);
    destruct (read_list as_str vs); simpl; try done; by intros [= <-].
Qed.

Lemma task_of_obj_missing_skills (kw : dict value) self :
  "skills" ∉ kw.*1 → Imp.task_of_obj (Task.__init__ kw) = Some self →
  Imp.t_skills self = None.
Proof.
  intros Hk. unfold Imp.task_of_obj, Task.__init__. simpl.
  rewrite (py_get_None kw "skills") by done.
  destruct (py_get kw "name"); simpl; intros [= <-]; done.
Qed.

(** C8, as the code has it.  The constructors check nothing: a record that
    is a mapping with string keys, none of them [self], becomes an entity
    whose fields are what the record holds under their keys, [None] for a
    key that is missing, and the batch constructors build one entity for
    each record of the list under [Peoples] or [Tasks], in order.  These
    [None] are what [make_teams] reads: a person or a task without skills
    makes it raise [TypeError] where the candidates are chosen or the skills
    are counted, and a team member without salary makes it raise [TypeError]
    where the teams are ranked.  A missing top-level key does not get that
    far: the batch constructor raises [TypeError] at once. *)
Theorem constructors_do_not_validate data people_records task_records :
  py_get data "Peoples" = VList (VDict <$> people_records) →
  py_get data "Tasks" = VList (VDict <$> task_records) →
  Forall (λ kw : dict value, "self" ∉ kw.*1) (people_records ++ task_records) →
  Person.make_people data
  = Ok ((λ kw, Person.Obj (py_get kw "name") (py_get kw "salary")
                 (py_get kw "skills")) <$> people_records)
  ∧ Task.make_tasks data
    = Ok ((λ kw, Task.Obj (py_get kw "name") (py_get kw "skills") [])
          <$> task_records)
  ∧ (∀ (kw : dict value) k, k ∉ kw.*1 → py_get kw k = VNone)
  ∧ (∀ kw p order self people h,
       kw ∈ people_records → "skills" ∉ kw.*1 →
       Imp.of_obj (Person.__init__ kw) = Some p →
       p ∈ Imp.cell h people →
       Imp.make_teams order self people h = Raise TypeError)
  ∧ (∀ kw self order people h,
       kw ∈ task_records → "skills" ∉ kw.*1 →
       Imp.task_of_obj (Task.__init__ kw) = Some self →
       Imp.make_teams order self people h = Raise TypeError)
  ∧ (∀ kw p order self people h locs h' a,
       kw ∈ people_records → "salary" ∉ kw.*1 →
       Imp.of_obj (Person.__init__ kw) = Some p →
       Imp.found_teams order (Imp.t_skills self) people h = Ok (locs, h') →
       a ∈ locs → p ∈ Imp.cell h' a →
       Imp.make_teams order self people h = Raise TypeError)
  ∧ (∀ data' : dict value,
       "Peoples" ∉ data'.*1 → Person.make_people data' = Raise TypeError)
  ∧ (∀ data' : dict value,
       "Tasks" ∉ data'.*1 → Task.make_tasks data' = Raise TypeError).
Proof.
  intros Hpeople Htasks [Hp Ht]%Forall_app. split_and!.
  - unfold Person.make_people. rewrite Hpeople. simpl.
    apply map_result_records; [|done].
    intros kw Hkw. simpl. by destruct (decide ("self" ∈ kw.*1)).
  - unfold Task.make_tasks. rewrite Htasks. simpl.
    apply map_result_records; [|done].
    intros kw Hkw. simpl. by destruct (decide ("self" ∈ kw.*1)).
  - apply py_get_None.
  - intros kw p order self people h _ Hk Hobj Hin.
    eapply make_teams_person_no_skills; [done|].
    by eapply of_obj_missing_skills.
  - intros kw self order people h _ Hk Hobj.
    eapply make_teams_task_no_skills. by eapply task_of_obj_missing_skills.
  - intros kw p order self people h locs h' a _ Hk Hobj Hf Ha Hin.
    eapply make_teams_member_no_salary; [done..|].
    by eapply of_obj_missing_salary.
  - intros data' Hk. unfold Person.make_people.
    by rewrite py_get_None.
  - intros data' Hk. unfold Task.make_tasks. by rewrite py_get_None.
Qed.

Lemma constructors_do_not_validate_witness :
  let data :=
    [("Tasks", VList [VDict [("name", VStr "One")]]);
     ("Peoples", VList [VDict [("name", VStr "Mark"); ("salary", VInt 1500)];
                        VDict [("name", VStr "Ann");
                               ("skills", VList [VStr "js"])]])] in
  let Mark := Imp.Person (Some "Mark") (Some 1500) None in
  let Ann := Imp.Person (Some "Ann") None (Some ["js"]) in
  let h := (Imp.alloc [Ann; Mark] (Imp.Heap (λ _, []) 0)).2 in
  let h1 := (Imp.alloc [Ann] (Imp.Heap (λ _, []) 0)).2 in
  Person.make_people data
  = Ok [Person.Obj (VStr "Mark") (VInt 1500) VNone;
        Person.Obj (VStr "Ann") VNone (VList [VStr "js"])]
  ∧ Task.make_tasks data = Ok [Task.Obj (VStr "One") VNone []]
  ∧ Imp.make_teams id (Imp.Task (Some "Two") (Some ["js"]) []) 0%nat h
    = Raise TypeError
  ∧ Imp.make_teams id (Imp.Task (Some "One") None []) 0%nat h1
    = Raise TypeError
  ∧ Imp.make_teams id (Imp.Task (Some "Two") (Some ["js"]) []) 0%nat h1
    = Raise TypeError
  ∧ Person.make_people [("Tasks", VList [])] = Raise TypeError
  ∧ Task.make_tasks [("Peoples", VList [])] = Raise TypeError.
Proof.
  intros data Mark Ann h h1.
  destruct (constructors_do_not_validate data
              [[("name", VStr "Mark"); ("salary", VInt 1500)];
               [("name", VStr "Ann"); ("skills", VList [VStr "js"])]]
              [[("name", VStr "One")]])
    as (Hp & Ht & _ & Hskills & Htask & Hsalary & Hpeoples & Htasks).
  { reflexivity. }
  { reflexivity. }
  { apply (bool_decide_unpack _). vm_compute. exact I. }
  split_and!.
  - exact Hp.
  - exact Ht.
  - apply (Hskills [("name", VStr "Mark"); ("salary", VInt 1500)] Mark).
    + left.
    + apply (bool_decide_unpack _). vm_compute. exact I.
    + reflexivity.
    + apply (bool_decide_unpack _). vm_compute. exact I.
  - apply (Htask [("name", VStr "One")]).
    + left.
    + apply (bool_decide_unpack _). vm_compute. exact I.
    + reflexivity.
  - destruct (Imp.found_teams id (Some ["js"]) 0%nat h1)
      as [[locs h']|e] eqn:E; [|by vm_compute in E].
    apply (Hsalary [("name", VStr "Ann"); ("skills", VList [VStr "js"])]
             Ann id (Imp.Task (Some "Two") (Some ["js"]) []) 0%nat h1
             locs h' 4%nat).
    + right. left.
    + apply (bool_decide_unpack _). vm_compute. exact I.
    + reflexivity.
    + exact E.
    + vm_compute in E. injection E as <- _.
      apply (bool_decide_unpack _). vm_compute. exact I.
    + vm_compute in E. injection E as _ <-.
      apply (bool_decide_unpack _). vm_compute. exact I.
  - apply Hpeoples. apply (bool_decide_unpack _). vm_compute. exact I.
  - apply Htasks. apply (bool_decide_unpack _). vm_compute. exact I.
Defined.

(** C8, as the specification states it, fails when a top-level key is
    missing: the batch constructors then raise at once. *)
Lemma make_people_missing_key_raises :
  Person.make_people [("Tasks", VList [])] = Raise TypeError
  ∧ Task.make_tasks [("Peoples", VList [])] = Raise TypeError.
Proof. by split. Qed.

(** ** The run over all tasks *)

Lemma task_rel_ext P h h' t t' :
  task_rel P h t t' → Imp.ext (Imp.next h) h h' → task_rel P h' t t'.
Proof.
  intros (teams & Hf & Ht & Hrel) Hext. exists teams. split_and!; [done..|].
  by eapply teams_rel_ext.
Qed.

Lemma make_all_teams_loop order P people tasks :
  (∀ l x, x ∈ order l ↔ x ∈ l) →
  ∀ before acc h,
    Forall2 (task_rel P h) before acc →
    holds h people P → (people < Imp.next h)%nat →
    ∃ tasks' h',
      for_each
        (λ st t, r ← Imp.make_teams order t people st.2;
                 Ok (st.1 ++ [r.1], r.2))
        ((λ t, Imp.task_of_typed t []) <$> tasks) (acc, h)
      = Ok (tasks', h')
      ∧ Forall2 (task_rel P h') (before ++ tasks) tasks'
      ∧ Imp.ext (Imp.next h) h h'.
Proof.
  intros Horder. induction tasks as [|t tasks IH]; intros before acc h H2 Hp Hlt.
  - exists acc, h. rewrite app_nil_r. split_and!; [done..|apply ext_refl].
  - rewrite fmap_cons. cbn [for_each fst snd].
    destruct (make_teams_sim order Horder t P people h [] Hp Hlt)
      as (locs & h1 & teams & -> & Hf & Hrel & Hext).
    cbn [mbind result_bind fst snd].
    destruct (IH (before ++ [t]) (acc ++ [Imp.task_of_typed t locs]) h1)
      as (tasks' & h' & Hrun & H2' & Hext').
    + apply Forall2_app.
      * eapply Forall2_impl; [done|]. intros ???. by eapply task_rel_ext.
      * constructor; [|constructor]. by exists teams.
    + by eapply holds_ext.
    + destruct Hext. lia.
    + exists tasks', h'. rewrite <-(assoc_L (++)) in H2'.
      split_and!; [done..|]. eapply ext_trans; [done|].
      eapply ext_mono; [|done]. by destruct Hext.
Qed.

(** X8: the loop of [main] over the tasks, all of them given the one list
    of people.  On persons and tasks with typed fields it returns, whatever
    the order of the sets; each task keeps its name and its skills and ends
    with the teams that [make_teams] finds for it alone on these people, so
    that no task is influenced by the tasks before it; and the list of people
    is after the loop what it was before. *)
Theorem make_all_teams_shared_roster order tasks P people h :
  (∀ l x, x ∈ order l ↔ x ∈ l) →
  holds h people P → (people < Imp.next h)%nat →
  ∃ tasks' h',
    Imp.make_all_teams order ((λ t, Imp.task_of_typed t []) <$> tasks)
      people h = Ok (tasks', h')
    ∧ Forall2
        (λ t t',
           ∃ self_f,
             Task.make_teams t P = Ok (self_f, P)
             ∧ Imp.t_name t' = Some (Task.name t)
             ∧ Imp.t_skills t' = Some (Task.skills t)
             ∧ Imp.teams_of t' h'
               = (λ tm : team, Imp.of_typed <$> tm) <$> Task.teams self_f)
        tasks tasks'
    ∧ Imp.cell h' people = Imp.cell h people.
Proof.
  intros Horder Hp Hlt.
  destruct (make_all_teams_loop order P people tasks Horder [] [] h)
    as (tasks' & h' & Hrun & H2 & Hext); [constructor|done..|].
  exists tasks', h'. split_and!; [done| |by apply Hext].
  eapply Forall2_impl; [done|].
  intros t t' (teams & Hf & Ht & [Hholds _]). eexists. split; [done|].
  rewrite Ht. split_and!; [done..|]. unfold Imp.teams_of. simpl.
  by apply teams_of_holds.
Qed.

Lemma make_all_teams_shared_roster_witness :
  let Mark := Person.mk "Mark" 1500 ["js"; "python"] in
  let Petya := Person.mk "Petya" 2500 ["C++"; "python"; "postgresql"] in
  let P := [Mark; Petya] in
  let tasks := [Task.mk "Two" ["js"] []; Task.mk "Three" ["C++"; "js"] []] in
  let h := (Imp.alloc (Imp.of_typed <$> P) (Imp.Heap (λ _, []) 0)).2 in
  ∃ tasks' h',
    Imp.make_all_teams (@reverse string)
      ((λ t, Imp.task_of_typed t []) <$> tasks) 0%nat h = Ok (tasks', h')
    ∧ Forall2
        (λ t t',
           ∃ self_f,
             Task.make_teams t P = Ok (self_f, P)
             ∧ Imp.t_name t' = Some (Task.name t)
             ∧ Imp.t_skills t' = Some (Task.skills t)
             ∧ Imp.teams_of t' h'
               = (λ tm : team, Imp.of_typed <$> tm) <$> Task.teams self_f)
        tasks tasks'
    ∧ Imp.cell h' 0%nat = Imp.cell h 0%nat.
Proof.
  intros Mark Petya P tasks h.
  apply (make_all_teams_shared_roster (@reverse string) tasks P 0%nat h).
  - intros l x. apply elem_of_reverse.
  - reflexivity.
  - simpl. lia.
Defined.
